(** * The path index of the workspace: hints, updates, lookups and splitting

    A shallow embedding of the path index (which source fragments each part
    of a merged element comes from) and the properties of its hint
    computer, its updater, its lookup and its splitter. *)

From Stdlib Require Import Ascii.
From stdpp Require Import base gmap list strings.

Set Warnings "-register-all".

(** ** Paths, fragments and hints *)

(** [type Path = readonly string[]] *)
Definition Path := list string.

(** [type Fragment<T> = {value: T; path: Path}] *)
Record Fragment (T : Type) := mkFragment { f_value : T; f_path : Path }.
Arguments mkFragment {T} _ _.
Arguments f_value {T} _.
Arguments f_path {T} _.

(** [type PathHint = {key: string; value: Path[]}]; a
    [RemoteMapEntry<Path[]>] has the same two attributes. *)
Record PathHint := mkHint { key : string; value : list Path }.

(** ** Element ids

    [ElemID] is a class of the adapter API.  The index only calls the five
    methods below, so they are taken as an interface; every property that
    needs more than their types says so in a hypothesis. *)
Class ElemIDOps (ElemID : Type) := {
  getFullName : ElemID → string;
  getFullNameParts : ElemID → list string;
  createNestedID : ElemID → list string → ElemID;
  (** the [{parent, path}] pair *)
  createTopLevelParentID : ElemID → ElemID * list string;
  fromFullName : string → ElemID
}.

(** [parts.join(sep)] *)
Definition join (sep : string) (parts : list string) : string :=
  String.concat sep parts.

(** [parts.pop()], as far as the array is concerned. *)
Definition pop {A} (l : list A) : list A := removelast l.

(** ** The store

    [PathIndex = RemoteMap<Path[]>]: the asynchronous calls are run one after
    the other, so the store is a finite map passed from call to call. *)
Abbreviation PathIndex := (gmap string (list Path)).

Definition setAll (entries : list PathHint) (index : PathIndex) : PathIndex :=
  foldl (λ m e, <[key e := value e]> m) index entries.

Definition deleteAll (keys : list string) (index : PathIndex) : PathIndex :=
  foldl (λ m k, delete k m) index keys.

(** What [setAll entries] leaves at key [k]: the value of the last entry
    written there, if any. *)
Definition hintFor (k : string) (entries : list PathHint)
    : option (list Path) :=
  value <$> last (filter (λ e, key e = k) entries).

(** The invariant of an index entry with respect to the paths of the
    fragments it was computed from, [paths] in input order: the entry lists
    at least one path, and lists paths in the order of [paths]. *)
Definition pathsInOrder (paths : list Path) (hint : PathHint) : Prop :=
  value hint ≠ [] ∧ value hint `sublist_of` paths.

(** ** getFromPathIndex *)
Section Lookup.
Context {ElemID : Type} `{!ElemIDOps ElemID}.

(** One run of the [do ... while] body per unit of fuel; [None] is "out of
    fuel". *)
Fixpoint getFromPathIndex_loop (fuel : nat) (index : PathIndex)
    (topLevelKey : string) (idParts : list string) (isExactMatch : bool)
    : option (list Path) :=
  match fuel with
  | 0 => None
  | S fuel' =>
    let key := join "." idParts in
    match index !! key with
    | Some (hint :: hints) =>
        Some (if isExactMatch then hint :: hints else [hint])
    | _ =>
        let idParts' := pop idParts in
        if bool_decide (0 < length idParts')
           && negb (bool_decide (key = topLevelKey))
        then getFromPathIndex_loop fuel' index topLevelKey idParts' false
        else Some []
    end
  end.

Definition getFromPathIndex (elemID : ElemID) (index : PathIndex)
    : list Path :=
  let idParts := getFullNameParts elemID in
  let topLevelKey := getFullName (createTopLevelParentID elemID).1 in
  default [] (getFromPathIndex_loop (S (length idParts)) index topLevelKey
                idParts true).

(** The key looked up after [j] truncations. *)
Definition truncatedKey (idParts : list string) (j : nat) : string :=
  join "." (take (length idParts - j) idParts).

(** What the lookup treats as a miss. *)
Definition missing (index : PathIndex) (k : string) : Prop :=
  index !! k = None ∨ index !! k = Some [].

End Lookup.

(** ** Values

    [Value] of the adapter API is [any]; the hint computer tells plain
    objects (by [_.isPlainObject]) from everything else, and [undefined]
    from defined values (by [values.isDefined]).  A plain object is an
    ordinary object, whose prototype is [Object.prototype]: it is the list
    of its own properties in the order [Object.keys] enumerates them, and
    the keyed read [v[k]] of a name it does not own finds the member of that
    name of [Object.prototype].  Those members are functions ([VFunction]),
    but for [__proto__], which reads as [Object.prototype] itself
    ([VObjectPrototype]): a plain object for [_.isPlainObject], with no
    enumerable key, whose own [__proto__] reads as [null]. *)
Inductive Value :=
  | VUndefined
  | VNull
  | VPrimitive (s : string)
  | VFunction (name : string)
  | VArray (items : list Value)
  | VObject (props : list (string * Value))
  | VObjectPrototype.

(** [Values = Record<string, Value>] *)
Definition Values := list (string * Value).

Definition isPlainObject (v : Value) : bool :=
  match v with VObject _ | VObjectPrototype => true | _ => false end.

(** [values.isDefined(v)]: [v !== undefined]. *)
Definition isDefined (v : Value) : bool :=
  match v with VUndefined => false | _ => true end.

(** [Object.keys(v)]; only called on plain objects. *)
Definition objectKeys (v : Value) : list string :=
  match v with VObject props => props.*1 | _ => [] end.

Fixpoint assoc {A} (k : string) (l : list (string * A)) : option A :=
  match l with
  | [] => None
  | (k', v) :: l' => if decide (k' = k) then Some v else assoc k l'
  end.

(** [Object.getOwnPropertyNames(Object.prototype)] *)
Definition objectPrototypeNames : list string :=
  ["constructor"; "__defineGetter__"; "__defineSetter__"; "hasOwnProperty";
   "__lookupGetter__"; "__lookupSetter__"; "isPrototypeOf";
   "propertyIsEnumerable"; "toString"; "valueOf"; "__proto__";
   "toLocaleString"].

(** [Object.prototype[k]] *)
Definition objectPrototypeMember (k : string) : Value :=
  if decide (k = "__proto__") then VNull
  else if decide (k ∈ objectPrototypeNames) then VFunction k
  else VUndefined.

(** What the read of [k] finds in an ordinary object that has no property
    [k] of its own. *)
Definition inheritedMember (k : string) : Value :=
  if decide (k = "__proto__") then VObjectPrototype
  else objectPrototypeMember k.

(** [v[k]]; only called on plain objects.  An own property shadows the
    inherited member, also when its value is [undefined]. *)
Definition getProp (v : Value) (k : string) : Value :=
  match v with
  | VObject props =>
      match assoc k props with
      | Some w => w
      | None => inheritedMember k
      end
  | VObjectPrototype => objectPrototypeMember k
  | _ => VUndefined
  end.

(** [_.uniq]: the first occurrence of each value, in order. *)
Fixpoint uniq (l : list string) : list string :=
  match l with
  | [] => []
  | x :: l' => x :: filter (λ y, y ≠ x) (uniq l')
  end.

(** [_.groupBy(l, keyOf)] as the list of its entries: the keys in the order
    they are first seen (full names of ids are not array indices, which an
    object would enumerate first), each with its members in input order. *)
Definition groupBy {A} (keyOf : A → string) (l : list A)
    : list (string * list A) :=
  map (λ k, (k, filter (λ x, keyOf x = k) l)) (uniq (map keyOf l)).

(** How deep plain objects are nested in a value, counting what a read can
    find in the prototype: the recursion of [getValuePathHints] goes no
    deeper. *)
Fixpoint nesting (v : Value) : nat :=
  match v with
  | VObject props =>
      S (1 `max`
         (fix go (l : list (string * Value)) : nat :=
            match l with
            | [] => 0
            | (_, w) :: l' => nesting w `max` go l'
            end) props)
  | VObjectPrototype => 1
  | _ => 0
  end.

Definition maxNesting (fragments : list (Fragment Value)) : nat :=
  foldr (λ f n, nesting (f_value f) `max` n) 0 fragments.

(** The fragments where the read of [key] is defined, each with what is
    read there:
    [fragments.filter(f => values.isDefined(f.value[key]))
              .map(f => ({ value: f.value[key], path: f.path }))]. *)
Definition propFragments (key : string) (fragments : list (Fragment Value))
    : list (Fragment Value) :=
  map (λ f, mkFragment (getProp (f_value f) key) (f_path f))
    (filter (λ f, isDefined (getProp (f_value f) key)) fragments).

(** [l.flatMap(f)] where [f] can throw: the first call that throws ends
    the whole with its error, [None]. *)
Fixpoint flatMapE {A B} (f : A → option (list B)) (l : list A)
    : option (list B) :=
  match l with
  | [] => Some []
  | x :: l' =>
      match f x with
      | None => None
      | Some ys =>
          match flatMapE f l' with
          | None => None
          | Some zs => Some (ys ++ zs)
          end
      end
  end.

(** How an asynchronous call ends: its promise is resolved, or rejected
    with what was thrown. *)
Inductive Outcome := Resolved | Rejected.

(** ** Elements *)
Section Elements.
Context {ElemID : Type}.

(** A [Field]: its id and its annotations. *)
Record Field := mkField {
  field_elemID : ElemID;
  field_annotations : Values
}.

(** What [fields[name]] reads in the record of the fields of an object
    type: a field of the record, or the member of that name that the
    record inherits from [Object.prototype], which is no field. *)
Inductive FieldSlot :=
  | OwnField (fld : Field)
  | InheritedMember (name : string).

(** [slot.elemID]: [undefined] on what is no field. *)
Definition slotElemID (slot : FieldSlot) : option ElemID :=
  match slot with
  | OwnField fld => Some (field_elemID fld)
  | InheritedMember _ => None
  end.

(** [slot.annotations] *)
Definition slotAnnotations (slot : FieldSlot) : Value :=
  match slot with
  | OwnField fld => VObject (field_annotations fld)
  | InheritedMember _ => VUndefined
  end.

(** [fields[name]], when it is not [undefined]. *)
Definition readField (fs : list (string * Field)) (name : string)
    : option FieldSlot :=
  match assoc name fs with
  | Some fld => Some (OwnField fld)
  | None =>
      if decide (name ∈ objectPrototypeNames)
      then Some (InheritedMember name) else None
  end.

(** What an [Element] has beside the attributes all elements share:
    an [ObjectType] its fields, an [InstanceElement] its value. *)
Inductive ElementKind :=
  | ObjectTypeKind (fields : list (string * Field))
  | InstanceElementKind (val : Values)
  | OtherKind.

Record Element := mkElement {
  elemID : ElemID;
  annotationRefTypes : list (string * ElemID);
  annotations : Values;
  path : option Path;
  kind : ElementKind
}.

Definition isObjectType (e : Element) : bool :=
  match kind e with ObjectTypeKind _ => true | _ => false end.

Definition isInstanceElement (e : Element) : bool :=
  match kind e with InstanceElementKind _ => true | _ => false end.

(** [e.fields] of an [ObjectType] *)
Definition fields (e : Element) : list (string * Field) :=
  match kind e with ObjectTypeKind fs => fs | _ => [] end.

(** [e.value] of an [InstanceElement] *)
Definition instanceValue (e : Element) : Values :=
  match kind e with InstanceElementKind v => v | _ => [] end.

(** [e.path as Path] *)
Definition pathOf (e : Element) : Path := default [] (path e).

(** [clone()] followed by [clonedElement.path = p]: values are immutable
    here, so the deep copy is the element itself. *)
Definition withPath (p : option Path) (e : Element) : Element :=
  {| elemID := elemID e; annotationRefTypes := annotationRefTypes e;
     annotations := annotations e; path := p; kind := kind e |}.
End Elements.
Arguments Field : clear implicits.
Arguments FieldSlot : clear implicits.
Arguments ElementKind : clear implicits.
Arguments Element : clear implicits.

(** ** The path-hint computer *)
Section Hints.
Context {ElemID : Type} `{!ElemIDOps ElemID}.

(** [getValuePathHints].  The recursion descends into the properties of
    the fragments' values; [fuel] bounds its depth, and
    [getValuePathHints] below gives it more than the values can use
    ([getValuePathHints_fuel_enough]). *)
Fixpoint getValuePathHints_rec (fuel : nat)
    (fragments : list (Fragment Value)) (elemID : ElemID)
    : list PathHint :=
  match fragments with
  | [f] => [mkHint (getFullName elemID) [f_path f]]
  | _ =>
    if forallb (λ f, isPlainObject (f_value f)) fragments then
      match fuel with
      | 0 => []
      | S fuel' =>
        let allKeys :=
          uniq (flat_map (λ f, objectKeys (f_value f)) fragments) in
        flat_map (λ key,
          getValuePathHints_rec fuel' (propFragments key fragments)
            (createNestedID elemID [key])) allKeys
      end
    else []
  end.

Definition getValuePathHints (fragments : list (Fragment Value))
    (elemID : ElemID) : list PathHint :=
  getValuePathHints_rec (S (maxNesting fragments)) fragments elemID.

Definition getAnnotationTypesPathHints
    (fragments : list (Fragment (Element ElemID))) : list PathHint :=
  let fragmentsWithNonEmptyAnnoTypes :=
    filter (λ f, annotationRefTypes (f_value f) ≠ []) fragments in
  match fragmentsWithNonEmptyAnnoTypes with
  | [f] =>
      [mkHint
         (getFullName (createNestedID (elemID (f_value f)) ["annotation"]))
         [f_path f]]
  | _ =>
      flat_map (λ f,
        map (λ annoKey,
               mkHint
                 (getFullName
                    (createNestedID (elemID (f_value f))
                       ["annotation"; annoKey]))
                 [f_path f])
            (annotationRefTypes (f_value f)).*1)
        fragmentsWithNonEmptyAnnoTypes
  end.

(** [fragments[0].value] of an empty array throws: [None]. *)
Definition getAnnotationPathHints
    (fragments : list (Fragment (Element ElemID)))
    : option (list PathHint) :=
  match fragments with
  | [] => None
  | f0 :: _ =>
      let elem := f_value f0 in
      Some (getValuePathHints
              (map (λ f, mkFragment (VObject (annotations (f_value f)))
                           (f_path f)) fragments)
              (if isInstanceElement elem then elemID elem
               else createNestedID (elemID elem) ["attr"]))
  end.

(** [getFieldPathHints].  A fragment whose value is no field has no
    [elemID]: [fragments[0].value.elemID.getFullName()] throws on it
    ([None]), after the annotations were looked at. *)
Definition getFieldPathHints
    (fragments : list (Fragment (FieldSlot ElemID)))
    : option (list PathHint) :=
  match fragments with
  | [] => Some []
  | [f] =>
      match slotElemID (f_value f) with
      | Some fieldID => Some [mkHint (getFullName fieldID) [f_path f]]
      | None => None
      end
  | f0 :: _ =>
      match slotElemID (f_value f0) with
      | Some fieldID =>
          Some (getValuePathHints
                  (map (λ f, mkFragment (slotAnnotations (f_value f))
                               (f_path f)) fragments)
                  fieldID
                ++ [mkHint (getFullName fieldID) (map f_path fragments)])
      | None => None
      end
  end.

(** The fragments where [fields[fieldName]] is defined, each with what is
    read there. *)
Definition fieldFragments (fieldName : string)
    (fragments : list (Fragment (Element ElemID)))
    : list (Fragment (FieldSlot ElemID)) :=
  omap (λ f, (λ slot, mkFragment slot (f_path f))
               <$> readField (fields (f_value f)) fieldName) fragments.

Definition getFieldsPathHints
    (fragments : list (Fragment (Element ElemID)))
    : option (list PathHint) :=
  let fragmentsWithFields :=
    filter (λ f, fields (f_value f) ≠ []) fragments in
  match fragmentsWithFields with
  | [f] =>
      Some
        [mkHint
           (getFullName (createNestedID (elemID (f_value f)) ["field"]))
           [f_path f]]
  | _ =>
      let fieldNames :=
        uniq (flat_map (λ f, (fields (f_value f)).*1)
                fragmentsWithFields) in
      flatMapE (λ fieldName,
                  getFieldPathHints (fieldFragments fieldName fragments))
        fieldNames
  end.

Definition getElementPathHints
    (elementFragments : list (Fragment (Element ElemID)))
    : option (list PathHint) :=
  match elementFragments with
  | [] => Some []
  | [f] => Some [mkHint (getFullName (elemID (f_value f))) [f_path f]]
  | f0 :: _ =>
      let annoTypesHints := getAnnotationTypesPathHints elementFragments in
      match getAnnotationPathHints elementFragments with
      | None => None
      | Some annotationHints =>
          match
            (if forallb (λ f, isObjectType (f_value f)) elementFragments
             then getFieldsPathHints elementFragments else Some [])
          with
          | None => None
          | Some fieldHints =>
              let valueHints :=
                if forallb (λ f, isInstanceElement (f_value f))
                     elementFragments
                then getValuePathHints
                       (map (λ f,
                               mkFragment
                                 (VObject (instanceValue (f_value f)))
                                 (f_path f)) elementFragments)
                       (elemID (f_value f0))
                else [] in
              Some (annoTypesHints ++ annotationHints ++ fieldHints
                    ++ valueHints
                    ++ [mkHint (getFullName (elemID (f_value f0)))
                          (map f_path elementFragments)])
          end
      end
  end.

(** The elements of a group that carry a path, as fragments. *)
Definition toFragments (elements : list (Element ElemID))
    : list (Fragment (Element ElemID)) :=
  map (λ element, mkFragment element (pathOf element))
    (filter (λ element, is_Some (path element)) elements).

Definition getElementsPathHints (unmergedElements : list (Element ElemID))
    : option (list PathHint) :=
  let elementsByID :=
    groupBy (λ e, getFullName (elemID e)) unmergedElements in
  flatMapE (λ entry, getElementPathHints (toFragments entry.2))
    elementsByID.

Definition getTopLevelPathHints (unmergedElements : list (Element ElemID))
    : list PathHint :=
  let topLevelElementsWithPath :=
    filter (λ e, is_Some (path e)) unmergedElements in
  let elementsByID :=
    groupBy (λ e, getFullName (elemID e)) topLevelElementsWithPath in
  map (λ entry, mkHint entry.1 (map pathOf entry.2)) elementsByID.

(** ** The hints as the specification words them

    For comparing the code with the specification: there, "the sub-list
    of fragments that actually define that key" leaves out the "fragments
    where the key is absent or undefined", and a fragment contributes to
    a field when the field is "present" in it.  Both look at what a
    mapping holds itself. *)
Definition ownProp (v : Value) (k : string) : Value :=
  match v with
  | VObject props => default VUndefined (assoc k props)
  | _ => VUndefined
  end.

Definition definingFragments (key : string)
    (fragments : list (Fragment Value)) : list (Fragment Value) :=
  map (λ f, mkFragment (ownProp (f_value f) key) (f_path f))
    (filter (λ f, isDefined (ownProp (f_value f) key)) fragments).

Fixpoint hintsForValue_rec (fuel : nat)
    (fragments : list (Fragment Value)) (baseId : ElemID)
    : list PathHint :=
  match fragments with
  | [f] => [mkHint (getFullName baseId) [f_path f]]
  | _ =>
    if forallb (λ f, isPlainObject (f_value f)) fragments then
      match fuel with
      | 0 => []
      | S fuel' =>
        let keys :=
          uniq (flat_map (λ f, objectKeys (f_value f)) fragments) in
        flat_map (λ key,
          hintsForValue_rec fuel' (definingFragments key fragments)
            (createNestedID baseId [key])) keys
      end
    else []
  end.

Definition hintsForValue (fragments : list (Fragment Value))
    (baseId : ElemID) : list PathHint :=
  hintsForValue_rec (S (maxNesting fragments)) fragments baseId.

(** The fragments in which a field of that name is present, each with
    the field. *)
Definition fragmentsOfField (fieldName : string)
    (fragments : list (Fragment (Element ElemID)))
    : list (Fragment (Field ElemID)) :=
  omap (λ f, (λ fld, mkFragment fld (f_path f))
               <$> assoc fieldName (fields (f_value f))) fragments.

(** The keys of a value, to any depth. *)
Fixpoint keysOf (v : Value) : list string :=
  match v with
  | VObject props =>
      (fix go (l : list (string * Value)) : list string :=
         match l with
         | [] => []
         | (k, w) :: l' => k :: keysOf w ++ go l'
         end) props
  | _ => []
  end.

(** The ids [getValuePathHints] computes hints at, from base id [base]:
    the base id, and the ids made from one of them by nesting a key. *)
Inductive valueIds (base : ElemID) : ElemID → Prop :=
  | valueIds_base : valueIds base base
  | valueIds_key d k :
      valueIds base d → valueIds base (createNestedID d [k]).

(** The base id of the annotation values of an element. *)
Definition annotationsBase (e : Element ElemID) : ElemID :=
  if isInstanceElement e then elemID e
  else createNestedID (elemID e) ["attr"].

(** The ids [getElementPathHints] computes hints at for a fragment of
    element [e]. *)
Inductive hintIds (e : Element ElemID) : ElemID → Prop :=
  | hintIds_element : hintIds e (elemID e)
  | hintIds_annotation :
      annotationRefTypes e ≠ [] →
      hintIds e (createNestedID (elemID e) ["annotation"])
  | hintIds_annotation_key annoKey :
      annoKey ∈ (annotationRefTypes e).*1 →
      hintIds e (createNestedID (elemID e) ["annotation"; annoKey])
  | hintIds_annotations d :
      valueIds (annotationsBase e) d → hintIds e d
  | hintIds_fields :
      fields e ≠ [] → hintIds e (createNestedID (elemID e) ["field"])
  | hintIds_field fieldName fld d :
      assoc fieldName (fields e) = Some fld →
      valueIds (field_elemID fld) d → hintIds e d
  | hintIds_value d :
      isInstanceElement e = true → valueIds (elemID e) d → hintIds e d.

(** ** The index updater *)

(** The name of the top-level parent a key of the index parses back to. *)
Definition topLevelNameOfKey (k : string) : string :=
  getFullName (createTopLevelParentID (fromFullName k)).1.

(** What [updateIndex] does before it computes the hints: it clears the
    index, or deletes the keys whose top-level parent is not among the
    ids. *)
Definition prune (pathIndex : PathIndex)
    (unmergedElementIDs : option (gset string)) : PathIndex :=
  match unmergedElementIDs with
  | None => ∅
  | Some ids =>
      let entriesToDelete :=
        filter (λ k, topLevelNameOfKey k ∉ ids)
          (elements (dom pathIndex)) in
      deleteAll entriesToDelete pathIndex
  end.

(** [updateIndex]: how the call ends, and the index it leaves.  When the
    hint function throws, the promise is rejected and nothing is
    written; the index was pruned before. *)
Definition updateIndex (pathIndex : PathIndex)
    (changedUnmergedElements : list (Element ElemID))
    (unmergedElementIDs : option (gset string))
    (getHintsFunction : list (Element ElemID) → option (list PathHint))
    : Outcome * PathIndex :=
  let pruned := prune pathIndex unmergedElementIDs in
  match getHintsFunction changedUnmergedElements with
  | Some entriesToSet => (Resolved, setAll entriesToSet pruned)
  | None => (Rejected, pruned)
  end.

Definition updatePathIndex (pathIndex : PathIndex)
    (changedUnmergedElements : list (Element ElemID))
    (unmergedElementIDs : option (gset string)) : Outcome * PathIndex :=
  updateIndex pathIndex changedUnmergedElements unmergedElementIDs
    getElementsPathHints.

Definition updateTopLevelPathIndex (pathIndex : PathIndex)
    (changedUnmergedElements : list (Element ElemID))
    (unmergedElementIDs : option (gset string)) : Outcome * PathIndex :=
  updateIndex pathIndex changedUnmergedElements unmergedElementIDs
    (λ unmergedElements, Some (getTopLevelPathHints unmergedElements)).

(** ** Splitting an element by path

    [filterByID] is a function of the adapter utilities: it is given the
    id of the element, the element and a predicate on ids, and returns the
    filtered copy or [undefined]. *)
Section Split.
Variable filterByID :
  ElemID → Element ElemID → (ElemID → bool) → option (Element ElemID).

Definition filterByPathHint (index : PathIndex) (hint : Path)
    (id : ElemID) : bool :=
  existsb (λ idHint, bool_decide (idHint = hint))
    (getFromPathIndex id index).

Definition splitElementByPath (element : Element ElemID)
    (index : PathIndex) : list (Element ElemID) :=
  let pathHints := getFromPathIndex (elemID element) index in
  if bool_decide (length pathHints ≤ 1) then
    let pathToSet := head pathHints in
    [withPath pathToSet element]
  else
    omap id
      (map (λ hint,
              withPath (Some hint)
                <$> filterByID (elemID element) element
                      (filterByPathHint index hint))
         pathHints).
End Split.
End Hints.

(** ** Filtering an element by id *)
Section FilterByID.
Context {ElemID : Type} `{!ElemIDOps ElemID}.

(** Modelled from the spec: [filterByID] of the adapter utilities, whose
    code is not part of the sources at hand.  "Filtering is a membership
    predicate evaluated top-down over the element's structure
    (annotations, fields, nested values)": a sub-value is "retained" when
    the predicate accepts its id, "others dropped from that copy", and
    what lies below a dropped sub-value goes with it.  The ids are those
    the hint computer records hints at: the entries of a mapping are
    nested in the id of the mapping by their key, and a value that is no
    mapping is one sub-value, kept or dropped whole. *)
Fixpoint filterValue (filterFunc : ElemID → bool) (id : ElemID)
    (v : Value) : option Value :=
  if filterFunc id then
    Some match v with
         | VObject props =>
             VObject
               ((fix entries (l : list (string * Value)) :=
                   match l with
                   | [] => []
                   | (k, w) :: l' =>
                       match
                         filterValue filterFunc (createNestedID id [k]) w
                       with
                       | Some w' => (k, w') :: entries l'
                       | None => entries l'
                       end
                   end) props)
         | _ => v
         end
  else None.

(** Modelled from the spec: the entries of a mapping that are retained,
    filtered in turn. *)
Definition filterEntries (filterFunc : ElemID → bool) (base : ElemID)
    (props : Values) : Values :=
  omap (λ entry,
          (λ w, (entry.1, w))
            <$> filterValue filterFunc (createNestedID base [entry.1])
                  entry.2) props.

(** Modelled from the spec: a field is retained when the predicate
    accepts its id, with its annotations filtered in turn. *)
Definition filterField (filterFunc : ElemID → bool)
    (entry : string * Field ElemID) : option (string * Field ElemID) :=
  let fld := entry.2 in
  if filterFunc (field_elemID fld) then
    Some (entry.1,
          {| field_elemID := field_elemID fld;
             field_annotations :=
               filterEntries filterFunc (field_elemID fld)
                 (field_annotations fld) |})
  else None.

(** Modelled from the spec: the filtered copy of an element, or nothing
    "if filtering removed everything", which a top-down filter does when
    it drops the element itself.  The annotation types, the annotation
    values, the fields with their annotations and the value of an
    instance are filtered at the ids the hint computer gives them. *)
Definition filterByID (id : ElemID) (element : Element ElemID)
    (filterFunc : ElemID → bool) : option (Element ElemID) :=
  if filterFunc id then
    Some {| elemID := elemID element;
            annotationRefTypes :=
              filter (λ entry,
                        filterFunc
                          (createNestedID id ["annotation"; entry.1])
                        = true)
                (annotationRefTypes element);
            annotations :=
              filterEntries filterFunc
                (if isInstanceElement element then id
                 else createNestedID id ["attr"])
                (annotations element);
            path := path element;
            kind :=
              match kind element with
              | ObjectTypeKind fs =>
                  ObjectTypeKind (omap (filterField filterFunc) fs)
              | InstanceElementKind v =>
                  InstanceElementKind (filterEntries filterFunc id v)
              | OtherKind => OtherKind
              end |}
  else None.





End FilterByID.

(** ** A model of element ids *)
Module SegmentID.

(** [s.split('.')] *)
Fixpoint split (s : string) : list string :=
  match s with
  | EmptyString => [EmptyString]
  | String c rest =>
      if Ascii.eqb c "."%char then EmptyString :: split rest
      else match split rest with
           | [] => [String c EmptyString]
           | seg :: segs => String c seg :: segs
           end
  end.

(** The segments the hint computer puts between the id of a type and
    what it nests in it ([createNestedID('attr')] and the like). *)
Definition typeNesting : list string := ["attr"; "field"; "annotation"].

(** Modelled from the spec: the class [ElemID] of the adapter API, whose
    code is not part of the sources at hand.  An id is "an ordered,
    dot-joined sequence of string segments"; it is rendered by joining
    them and parsed back by splitting at the dots; a nested id is made by
    "append[ing] one or more segments"; the top-level parent is "the first
    2–3 segments depending on element kind": two when the id is a type's
    or nested in a type, three (adapter, type and instance name)
    otherwise. *)
Definition topLevelLength (segments : list string) : nat :=
  match segments with
  | _ :: _ :: third :: _ =>
      if bool_decide (third ∈ typeNesting) then 2 else 3
  | _ => length segments
  end.

#[export] Instance ops : ElemIDOps (list string) := {|
  getFullName segments := join "." segments;
  getFullNameParts segments := segments;
  createNestedID segments nameParts := segments ++ nameParts;
  createTopLevelParentID segments :=
    (take (topLevelLength segments) segments,
     drop (topLevelLength segments) segments);
  fromFullName := split
|}.

(** A stand-in for [filterByID], for trying the splitter: it keeps the
    element when the predicate accepts its id. *)
Definition keepIfOwned (id : list string) (e : Element (list string))
    (keep : list string → bool) : option (Element (list string)) :=
  if keep id then Some e else None.

End SegmentID.

(** ** Sample ids, elements and stores, over the model of ids *)
Module Samples.
Import SegmentID.

Definition objID : list string := ["salto"; "obj"].
Definition instID : list string := ["salto"; "obj"; "inst"].

Definition fieldA (annos : Values) : Field (list string) :=
  {| field_elemID := ["salto"; "obj"; "field"; "a"];
     field_annotations := annos |}.

Definition fieldB : Field (list string) :=
  {| field_elemID := ["salto"; "obj"; "field"; "b"];
     field_annotations := [] |}.

(** Three fragments of the object type [salto.obj]: the first and the
    third define field [a], the second has no field. *)
Definition obj1 : Element (list string) :=
  {| elemID := objID; annotationRefTypes := [];
     annotations := [("x", VPrimitive "1")]; path := Some ["f1"];
     kind := ObjectTypeKind [("a", fieldA [("label", VPrimitive "A")])] |}.

Definition obj2 : Element (list string) :=
  {| elemID := objID; annotationRefTypes := [];
     annotations := [("y", VPrimitive "2")]; path := Some ["f2"];
     kind := ObjectTypeKind [] |}.

Definition obj3 : Element (list string) :=
  {| elemID := objID; annotationRefTypes := [("note", ["salto"; "str"])];
     annotations := []; path := Some ["f3"];
     kind := ObjectTypeKind
               [("a", fieldA [("help", VPrimitive "H")]); ("b", fieldB)] |}.

(** Two fragments of the instance [salto.obj.inst], one with [a] and one
    with [b], and a third element of that id without a path. *)
Definition inst1 : Element (list string) :=
  {| elemID := instID; annotationRefTypes := []; annotations := [];
     path := Some ["f1"];
     kind := InstanceElementKind [("a", VPrimitive "1")] |}.

Definition inst2 : Element (list string) :=
  {| elemID := instID; annotationRefTypes := []; annotations := [];
     path := Some ["f2"];
     kind := InstanceElementKind [("b", VPrimitive "2")] |}.

Definition inst3 : Element (list string) :=
  {| elemID := instID; annotationRefTypes := []; annotations := [];
     path := None; kind := InstanceElementKind [] |}.

Definition fragmentOf (e : Element (list string))
    : Fragment (Element (list string)) :=
  mkFragment e (pathOf e).

(** Values of two fragments: plain objects that share key [a]. *)
Definition valueFragments : list (Fragment Value) :=
  [ mkFragment (VObject [("a", VObject [("n", VPrimitive "1")]);
                         ("b", VPrimitive "2")]) ["f1"];
    mkFragment (VObject [("c", VUndefined);
                         ("a", VObject [("m", VPrimitive "3")])]) ["f2"] ].

(** A list split between two fragments. *)
Definition listFragments : list (Fragment Value) :=
  [ mkFragment (VArray [VPrimitive "1"]) ["f1"];
    mkFragment (VArray [VPrimitive "2"]) ["f2"] ].

(** A store where the key of [salto.obj.attr.a] is recorded with no path
    and the key of the type with two. *)
Definition emptyEntryIndex : PathIndex :=
  <["salto.obj.attr.a" := []]>
    (<["salto.obj" := [["f1"]; ["f2"]]]> ∅).

(** A store with a key of a removed element. *)
Definition staleIndex : PathIndex :=
  <["salto.gone.attr.x" := [["f9"]]]>
    (<["salto.obj.inst.a" := [["f0"]]]> ∅).

Definition knownIds : gset string := {["salto.obj"; "salto.obj.inst"]}.

(** Values of two fragments where a key of the first has the name of a
    member of [Object.prototype]. *)
Definition constructorKeyFragments : list (Fragment Value) :=
  [ mkFragment (VObject [("constructor", VPrimitive "x")]) ["f1"];
    mkFragment (VObject [("b", VPrimitive "2")]) ["f2"] ].

(** Two fragments of the object type [salto.obj], the first with field
    [x] and the second with a field named [constructor]. *)
Definition fieldNamed (name : string) : Field (list string) :=
  {| field_elemID := ["salto"; "obj"; "field"; name];
     field_annotations := [] |}.

Definition objX : Element (list string) :=
  {| elemID := objID; annotationRefTypes := []; annotations := [];
     path := Some ["f1"];
     kind := ObjectTypeKind [("x", fieldNamed "x")] |}.

Definition objConstructor : Element (list string) :=
  {| elemID := objID; annotationRefTypes := []; annotations := [];
     path := Some ["f2"];
     kind := ObjectTypeKind [("constructor", fieldNamed "constructor")] |}.



End Samples.

(** ** Loading and serializing the index *)

(** [parsedEntries.flatMap(e => ({ key: e[0], value: e[1] }))]: the callback
    returns one object, which [flatMap] appends as it is. *)
Definition loadPathIndex (parsedEntries : list (string * list Path))
    : list PathHint :=
  flat_map (λ e, [mkHint e.1 e.2]) parsedEntries.

Section Serialize.
Context {ElemID : Type} `{!ElemIDOps ElemID}.

(** [getSerializedStream] is a function of the serialization library, and
    [adapter] an attribute of [ElemID]. *)
Context {Stream : Type}.
Variable getSerializedStream : list (string * list Path) → Stream.
Variable adapter : ElemID → string.

Definition serializedPathIndex (entries : list PathHint) : Stream :=
  getSerializedStream (map (λ e, (key e, value e)) entries).

(** The record [_.mapValues(_.groupBy(...), ...)] as the list of its
    entries. *)
Definition serializePathIndexByAccount (entries : list PathHint)
    : list (string * Stream) :=
  map (λ group, (group.1, serializedPathIndex group.2))
    (groupBy (λ entry, adapter (fromFullName (key entry))) entries).
End Serialize.

(** ** More samples *)
Module MoreSamples.
Import SegmentID Samples.

(** The adapter of an id of the model: its first segment. *)
Definition adapterOf (segments : list string) : string :=
  default EmptyString (head segments).

(** A store that knows the instance at its key and one of its values. *)
Definition instIndex : PathIndex :=
  <["salto.obj.inst.a" := [["f1"]]]>
    (<["salto.obj.inst" := [["f1"]; ["f2"]]]> ∅).

(** The same store but for a key that no lookup below [salto.obj.inst]
    reads. *)
Definition instIndexAndMore : PathIndex :=
  <["salto.other" := [["f7"]]]> instIndex.

Definition sampleEntries : list PathHint :=
  [ mkHint "salto.obj.inst" [["f1"]; ["f2"]];
    mkHint "jira.issue" [["g1"]];
    mkHint "salto.obj.inst.a" [["f1"]] ].

End MoreSamples.

(** * Properties *)

(** ** Joining and truncating *)
Section JoinFacts.

Lemma length_append (s t : string) :
  String.length (s +:+ t) = String.length s + String.length t.
Proof. induction s as [|c s IH]; simpl; [done|]. by rewrite IH. Qed.

Lemma join_cons (a b : string) (l : list string) :
  join "." (a :: b :: l) = a +:+ "." +:+ join "." (b :: l).
Proof. done. Qed.

Lemma length_join_app (l r : list string) :
  l ≠ [] → r ≠ [] →
  String.length (join "." l) < String.length (join "." (l ++ r)).
Proof.
  intros Hl Hr. induction l as [|a l IH]; [done|].
  destruct l as [|b l].
  - destruct r as [|x r]; [done|]. simpl app.
    rewrite join_cons, !length_append. simpl. lia.
  - change ((a :: b :: l) ++ r) with (a :: b :: (l ++ r)).
    rewrite !join_cons, !length_append.
    specialize (IH ltac:(done)). simpl in IH |- *. lia.
Qed.

Lemma length_join_take (n : nat) (l : list string) :
  String.length (join "." (take n l)) ≤ String.length (join "." l).
Proof.
  destruct (decide (take n l = [])) as [->|Hne]; [simpl; lia|].
  destruct (decide (drop n l = [])) as [Hd|Hd].
  - rewrite <- (take_drop n l) at 2. rewrite Hd, app_nil_r. lia.
  - rewrite <- (take_drop n l) at 2.
    pose proof (length_join_app _ _ Hne Hd). lia.
Qed.

Lemma pop_take {A} (l : list A) : pop l = take (length l - 1) l.
Proof.
  unfold pop. rewrite removelast_firstn_len. f_equal. lia.
Qed.

End JoinFacts.

(** ** The lookup *)
Section LookupFacts.
Context {ElemID : Type} `{!ElemIDOps ElemID}.
Implicit Types (index : PathIndex) (idParts : list string) (top : string).

Lemma truncatedKey_0 idParts : truncatedKey idParts 0 = join "." idParts.
Proof.
  unfold truncatedKey. by rewrite Nat.sub_0_r, firstn_all.
Qed.

Lemma truncatedKey_pop idParts i :
  truncatedKey (pop idParts) i = truncatedKey idParts (S i).
Proof.
  unfold truncatedKey. rewrite pop_take, take_take, length_take.
  do 2 f_equal. lia.
Qed.

Lemma length_pop idParts : length (pop idParts) = length idParts - 1.
Proof. rewrite pop_take, length_take. lia. Qed.

Lemma loop_hit fuel index top idParts exact hint hints :
  index !! join "." idParts = Some (hint :: hints) →
  getFromPathIndex_loop (S fuel) index top idParts exact
  = Some (if exact then hint :: hints else [hint]).
Proof. intros Hk. simpl. by rewrite Hk. Qed.

Lemma loop_continue fuel index top idParts exact :
  missing index (join "." idParts) →
  1 < length idParts → join "." idParts ≠ top →
  getFromPathIndex_loop (S fuel) index top idParts exact
  = getFromPathIndex_loop fuel index top (pop idParts) false.
Proof.
  intros Hm Hlen Hne. simpl.
  rewrite (bool_decide_eq_true_2 (0 < length (pop idParts)))
    by (rewrite length_pop; lia).
  rewrite (bool_decide_eq_false_2 _ Hne). simpl.
  by destruct Hm as [-> | ->].
Qed.

Lemma loop_stop fuel index top idParts exact :
  missing index (join "." idParts) →
  length idParts ≤ 1 ∨ join "." idParts = top →
  getFromPathIndex_loop (S fuel) index top idParts exact = Some [].
Proof.
  intros Hm Hstop. simpl.
  assert (bool_decide (0 < length (pop idParts))
          && negb (bool_decide (join "." idParts = top)) = false) as ->.
  { destruct Hstop as [Hlen | Heq].
    - rewrite bool_decide_eq_false_2; [done|]. rewrite length_pop. lia.
    - rewrite (bool_decide_eq_true_2 _ Heq). apply andb_false_r. }
  by destruct Hm as [-> | ->].
Qed.

(** The loop ends: a fuel above the number of segments is never used up. *)
Lemma loop_total fuel index top idParts exact :
  length idParts < fuel →
  is_Some (getFromPathIndex_loop fuel index top idParts exact).
Proof.
  revert idParts exact. induction fuel as [|fuel IH]; [lia|].
  intros idParts exact Hlen. simpl.
  destruct (index !! join "." idParts) as [[|hint hints]|]; [| by eexists |].
  all: destruct (bool_decide (0 < length (pop idParts))) eqn:Hpop; simpl;
    [|by eexists].
  all: destruct (negb _); [|by eexists].
  all: apply IH; rewrite length_pop; apply bool_decide_eq_true_1 in Hpop;
    rewrite length_pop in Hpop; lia.
Qed.

Lemma loop_found j : ∀ fuel index top idParts exact hint hints,
  length idParts < fuel →
  j = 0 ∨ j < length idParts →
  (∀ i, i < j → missing index (truncatedKey idParts i)
                ∧ truncatedKey idParts i ≠ top) →
  index !! truncatedKey idParts j = Some (hint :: hints) →
  getFromPathIndex_loop fuel index top idParts exact
  = Some (if exact && bool_decide (j = 0) then hint :: hints else [hint]).
Proof.
  induction j as [|j IH]; intros fuel index top idParts exact hint hints
    Hfuel Hj Hmiss Hhit.
  - destruct fuel as [|fuel]; [lia|].
    rewrite truncatedKey_0 in Hhit. rewrite (loop_hit _ _ _ _ _ _ _ Hhit).
    by destruct exact.
  - destruct Hj as [?|Hj]; [done|].
    destruct fuel as [|fuel]; [lia|].
    destruct (Hmiss 0 ltac:(lia)) as [Hm0 Hne0].
    rewrite truncatedKey_0 in Hm0, Hne0.
    rewrite loop_continue by (done || lia).
    rewrite (IH _ _ _ _ false hint hints).
    + by rewrite andb_false_r.
    + rewrite length_pop. lia.
    + rewrite length_pop. lia.
    + intros i Hi. rewrite truncatedKey_pop. apply Hmiss. lia.
    + by rewrite truncatedKey_pop.
Qed.

Lemma loop_not_found fuel : ∀ index top idParts exact,
  length idParts < fuel →
  (∀ j, j = 0 ∨ j < length idParts →
        (∀ i, i < j → truncatedKey idParts i ≠ top) →
        missing index (truncatedKey idParts j)) →
  getFromPathIndex_loop fuel index top idParts exact = Some [].
Proof.
  induction fuel as [|fuel IH]; intros index top idParts exact Hfuel Hall;
    [lia|].
  assert (missing index (join "." idParts)) as Hm0.
  { rewrite <- truncatedKey_0. apply Hall; [by left | lia]. }
  destruct (decide (1 < length idParts ∧ join "." idParts ≠ top))
    as [[Hlen Hne]|Hstop].
  - rewrite loop_continue by done. apply IH.
    + rewrite length_pop. lia.
    + intros j Hj Htop. rewrite truncatedKey_pop. apply Hall.
      * right. rewrite length_pop in Hj. lia.
      * intros [|i] Hi; [by rewrite truncatedKey_0|].
        rewrite <- truncatedKey_pop. apply Htop. lia.
  - apply loop_stop; [done|].
    destruct (decide (join "." idParts = top)); [by right|].
    left. apply not_and_l in Hstop as [?|?]; [lia|done].
Qed.

Lemma getFromPathIndex_loop_eq elemID index :
  getFromPathIndex_loop (S (length (getFullNameParts elemID))) index
    (getFullName (createTopLevelParentID elemID).1)
    (getFullNameParts elemID) true
  = Some (getFromPathIndex elemID index).
Proof.
  unfold getFromPathIndex.
  destruct (loop_total (S (length (getFullNameParts elemID))) index
              (getFullName (createTopLevelParentID elemID).1)
              (getFullNameParts elemID) true ltac:(lia)) as [r ->].
  done.
Qed.


Lemma getFromPathIndex_exact (elemID : ElemID) index hints :
  index !! join "." (getFullNameParts elemID) = Some hints → hints ≠ [] →
  getFromPathIndex elemID index = hints.
Proof.
  pose proof (getFromPathIndex_loop_eq elemID index) as Heq.
  intros Hk Hne. destruct hints as [|hint hints]; [done|].
  rewrite (loop_hit _ _ _ _ _ _ _ Hk) in Heq. congruence.
Qed.

(** C1, as the code has it: an exact key recorded with at least one path
    gives the whole recorded list; otherwise the id is truncated a
    segment at a time, and the first ancestor key recorded with at least
    one path, no later than the top-level-parent key, gives the list of
    its first path alone; when every key looked up, down to the
    top-level-parent key or the last segment, is absent or recorded with
    no path, the result is the empty list. *)
Theorem getFromPathIndex_cases (elemID : ElemID) (index : PathIndex) :
  let idParts := getFullNameParts elemID in
  let top := getFullName (createTopLevelParentID elemID).1 in
  (∀ hints, index !! join "." idParts = Some hints → hints ≠ [] →
     getFromPathIndex elemID index = hints)
  ∧ (∀ j hint hints, 0 < j < length idParts →
       (∀ i, i < j → missing index (truncatedKey idParts i)
                     ∧ truncatedKey idParts i ≠ top) →
       index !! truncatedKey idParts j = Some (hint :: hints) →
       getFromPathIndex elemID index = [hint])
  ∧ ((∀ j, j = 0 ∨ j < length idParts →
           (∀ i, i < j → truncatedKey idParts i ≠ top) →
           missing index (truncatedKey idParts j)) →
     getFromPathIndex elemID index = []).
Proof.
  intros idParts top.
  pose proof (getFromPathIndex_loop_eq elemID index) as Heq.
  fold idParts top in Heq. split; [|split].
  - apply getFromPathIndex_exact.
  - intros j hint hints [Hj0 Hj] Hmiss Hhit.
    rewrite (loop_found j _ _ _ _ _ hint hints) in Heq
      by (done || lia || by right).
    rewrite (bool_decide_eq_false_2 (j = 0)) in Heq by lia.
    simpl in Heq. congruence.
  - intros Hall. rewrite loop_not_found in Heq by (done || lia).
    congruence.
Qed.


End LookupFacts.

(** ** The store *)
Section StoreFacts.
Implicit Types (index : PathIndex) (entries : list PathHint).

Lemma setAll_snoc entries e index :
  setAll (entries ++ [e]) index = <[key e := value e]> (setAll entries index).
Proof. unfold setAll. by rewrite foldl_app. Qed.

Lemma hintFor_snoc k entries e :
  hintFor k (entries ++ [e])
  = if decide (key e = k) then Some (value e) else hintFor k entries.
Proof.
  unfold hintFor. rewrite filter_app, filter_cons, filter_nil.
  destruct (decide (key e = k)); [by rewrite last_snoc|].
  by rewrite app_nil_r.
Qed.

Lemma lookup_setAll entries index k :
  setAll entries index !! k
  = match hintFor k entries with
    | Some paths => Some paths
    | None => index !! k
    end.
Proof.
  induction entries as [|e entries IH] using rev_ind; [done|].
  rewrite setAll_snoc, hintFor_snoc.
  destruct (decide (key e = k)) as [<-|Hne].
  - by rewrite lookup_insert_eq.
  - by rewrite lookup_insert_ne.
Qed.

Lemma hintFor_Some k entries paths :
  hintFor k entries = Some paths → mkHint k paths ∈ entries.
Proof.
  unfold hintFor. intros Hl.
  destruct (last (filter (λ e, key e = k) entries)) as [e|] eqn:He; [|done].
  apply last_Some_elem_of, list_elem_of_filter in He as [Hk He].
  simpl in Hl. destruct e as [k' v]. simpl in *. congruence.
Qed.

Lemma lookup_deleteAll ks index k :
  deleteAll ks index !! k = if decide (k ∈ ks) then None else index !! k.
Proof.
  induction ks as [|k' ks IH] using rev_ind.
  - simpl. destruct (decide (k ∈ [])) as [Hin|]; [|done].
    by apply elem_of_nil in Hin.
  - unfold deleteAll in *. rewrite foldl_app. simpl.
    destruct (decide (k' = k)) as [->|Hne].
    + rewrite lookup_delete_eq. rewrite decide_True; [done|].
      apply elem_of_app. right. left.
    + rewrite lookup_delete_ne by done. rewrite IH.
      destruct (decide (k ∈ ks)) as [Hin|Hnin].
      * rewrite decide_True; [done|]. apply elem_of_app. by left.
      * rewrite decide_False; [done|].
        rewrite elem_of_app, list_elem_of_singleton. intros [?|?]; done.
Qed.

End StoreFacts.

(** ** The updater *)
Section UpdateFacts.
Context {ElemID : Type} `{!ElemIDOps ElemID}.
Implicit Types (index : PathIndex) (known : gset string).
Implicit Types (changed : list (Element ElemID)).
Implicit Types
  (hintFn : list (Element ElemID) → option (list PathHint)).

Lemma lookup_prune index ids k :
  prune index ids !! k
  = match ids with
    | None => None
    | Some known =>
        if decide (topLevelNameOfKey k ∈ known) then index !! k else None
    end.
Proof.
  destruct ids as [known|]; [|done]. simpl.
  rewrite lookup_deleteAll.
  destruct (decide (topLevelNameOfKey k ∈ known)) as [Hin|Hnin].
  - rewrite decide_False; [done|].
    rewrite list_elem_of_filter. intros [? _]; done.
  - destruct (decide (k ∈ _)) as [|Hnot]; [done|].
    rewrite list_elem_of_filter, elem_of_elements, elem_of_dom in Hnot.
    destruct (index !! k) eqn:Hk; [|done].
    destruct Hnot. split; [done|by eexists].
Qed.

Lemma updateIndex_outcome index changed ids hintFn :
  (updateIndex index changed ids hintFn).1
  = match hintFn changed with Some _ => Resolved | None => Rejected end.
Proof. unfold updateIndex. by destruct (hintFn changed). Qed.

Lemma lookup_updateIndex index changed ids hintFn k :
  (updateIndex index changed ids hintFn).2 !! k
  = match hintFn changed ≫= hintFor k with
    | Some paths => Some paths
    | None => prune index ids !! k
    end.
Proof.
  unfold updateIndex. destruct (hintFn changed) as [hints|]; simpl;
    [|done].
  rewrite lookup_setAll. by destruct (hintFor k hints).
Qed.

Lemma prune_idempotent index ids :
  prune (prune index ids) ids = prune index ids.
Proof.
  apply map_eq. intros k. rewrite !lookup_prune.
  destruct ids as [known|]; [|done].
  by destruct (decide (topLevelNameOfKey k ∈ known)).
Qed.

(** C5: without known ids the store is cleared and the hints of the
    changed fragments are written; with known ids the keys whose
    top-level parent is not among them are deleted, and only those, the
    hints are then written over what is left, and every other key keeps
    its value.  A hint function that throws rejects the call, and
    nothing is written to the store that was cleared or pruned. *)
Theorem updateIndex_spec index changed hintFn :
  updateIndex index changed None hintFn
  = match hintFn changed with
    | Some hints => (Resolved, setAll hints ∅)
    | None => (Rejected, ∅)
    end
  ∧ ∀ known k,
      (updateIndex index changed (Some known) hintFn).1
      = match hintFn changed with
        | Some _ => Resolved
        | None => Rejected
        end
      ∧ (updateIndex index changed (Some known) hintFn).2 !! k
        = match hintFn changed ≫= hintFor k with
          | Some paths => Some paths
          | None =>
              if decide (topLevelNameOfKey k ∈ known) then index !! k
              else None
          end.
Proof.
  split; [done|]. intros known k.
  by rewrite updateIndex_outcome, lookup_updateIndex, lookup_prune.
Qed.

(** C6: running the update a second time with the same arguments ends as
    the first run did and leaves the store as the first run left it. *)
Theorem updateIndex_idempotent index changed ids hintFn :
  updateIndex (updateIndex index changed ids hintFn).2 changed ids hintFn
  = updateIndex index changed ids hintFn.
Proof.
  unfold updateIndex. destruct (hintFn changed) as [hints|]; simpl.
  - f_equal. apply map_eq. intros k. rewrite !lookup_setAll.
    destruct (hintFor k hints) eqn:Hfor; [done|].
    rewrite !lookup_prune.
    destruct ids as [known|]; [|done].
    destruct (decide (topLevelNameOfKey k ∈ known)); [|done].
    by rewrite lookup_setAll, Hfor, lookup_prune, decide_True.
  - by rewrite prune_idempotent.
Qed.

End UpdateFacts.

(** ** Keys in first-seen order *)
Section UniqFacts.

Lemma elem_of_uniq (x : string) (l : list string) : x ∈ uniq l ↔ x ∈ l.
Proof.
  induction l as [|y l IH]; [done|]. simpl.
  rewrite !elem_of_cons, list_elem_of_filter, IH.
  destruct (decide (x = y)); tauto.
Qed.

Lemma NoDup_uniq (l : list string) : NoDup (uniq l).
Proof.
  induction l as [|y l IH]; simpl; constructor.
  - rewrite list_elem_of_filter. by intros [Hne _].
  - by apply NoDup_filter.
Qed.

Lemma uniq_sublist (l : list string) : uniq l `sublist_of` l.
Proof.
  induction l as [|y l IH]; [done|]. simpl. constructor.
  etrans; [apply sublist_filter|done].
Qed.

End UniqFacts.

(** ** Hints of values *)
Section ValueHintFacts.
Context {ElemID : Type} `{!ElemIDOps ElemID}.
Implicit Types (fragments : list (Fragment Value)) (elemID : ElemID).

Lemma nesting_getProp (v : Value) (k : string) :
  nesting (getProp v k) ≤ nesting v - 1.
Proof.
  assert (nesting (objectPrototypeMember k) = 0) as Hmember.
  { unfold objectPrototypeMember. by repeat destruct (decide _). }
  assert (nesting (inheritedMember k) ≤ 1) as Hinherited.
  { unfold inheritedMember. destruct (decide _); simpl; lia. }
  destruct v as [| | | | |props|]; simpl; try lia.
  rewrite Nat.sub_0_r.
  induction props as [|[k' w] props IH]; simpl; [lia|].
  destruct (decide (k' = k)); simpl; [lia|].
  destruct (assoc k props); simpl in *; lia.
Qed.

Lemma maxNesting_propFragments key fragments :
  maxNesting (propFragments key fragments) ≤ maxNesting fragments - 1.
Proof.
  unfold propFragments.
  induction fragments as [|f fragments IH]; simpl; [lia|].
  rewrite filter_cons. pose proof (nesting_getProp (f_value f) key).
  destruct (decide _); simpl; lia.
Qed.

Lemma nesting_plain (v : Value) : isPlainObject v = true → 0 < nesting v.
Proof. destruct v; simpl; (done || lia). Qed.

(** The fuel [getValuePathHints] gives is more than the recursion uses:
    any two fuels above the nesting of the values give the same hints. *)
Lemma getValuePathHints_fuel_enough n : ∀ m fragments elemID,
  maxNesting fragments < n → maxNesting fragments < m →
  getValuePathHints_rec n fragments elemID
  = getValuePathHints_rec m fragments elemID.
Proof.
  induction n as [|n IH]; intros m fragments elemID Hn Hm; [lia|].
  destruct m as [|m]; [lia|].
  destruct fragments as [|f1 [|f2 fragments]]; [done..|].
  set (fs := f1 :: f2 :: fragments) in *.
  change (getValuePathHints_rec (S n) fs elemID) with
    (if forallb (λ f, isPlainObject (f_value f)) fs then
       flat_map (λ key, getValuePathHints_rec n (propFragments key fs)
                          (createNestedID elemID [key]))
         (uniq (flat_map (λ f, objectKeys (f_value f)) fs))
     else []).
  change (getValuePathHints_rec (S m) fs elemID) with
    (if forallb (λ f, isPlainObject (f_value f)) fs then
       flat_map (λ key, getValuePathHints_rec m (propFragments key fs)
                          (createNestedID elemID [key]))
         (uniq (flat_map (λ f, objectKeys (f_value f)) fs))
     else []).
  destruct (forallb _ fs) eqn:Hall; [|done].
  assert (0 < maxNesting fs) as Hpos.
  { subst fs. simpl in Hall. apply andb_true_iff in Hall as [H1 _].
    apply nesting_plain in H1. simpl. lia. }
  apply flat_map_ext. intros key.
  pose proof (maxNesting_propFragments key fs).
  apply IH; lia.
Qed.

End ValueHintFacts.

(** ** Lists *)
Section ListFacts.
Context {A B : Type}.

Lemma map_fmap (f : A → B) (l : list A) : map f l = f <$> l.
Proof. done. Qed.

Lemma elem_of_flat_map (f : A → list B) (l : list A) (x : B) :
  x ∈ flat_map f l ↔ ∃ y, y ∈ l ∧ x ∈ f y.
Proof.
  rewrite list_elem_of_In, in_flat_map.
  by setoid_rewrite list_elem_of_In.
Qed.

Lemma elem_of_map (f : A → B) (l : list A) (x : B) :
  x ∈ map f l ↔ ∃ y, x = f y ∧ y ∈ l.
Proof. rewrite map_fmap. apply list_elem_of_fmap. Qed.

Lemma flatMapE_Some (f : A → option (list B)) (l : list A) ys :
  flatMapE f l = Some ys →
  (∀ x, x ∈ l → is_Some (f x))
  ∧ ∀ y, y ∈ ys ↔ ∃ x hs, x ∈ l ∧ f x = Some hs ∧ y ∈ hs.
Proof.
  revert ys. induction l as [|x l IH]; intros ys; simpl.
  - intros [= <-]. split; [by intros x []%elem_of_nil|].
    intros y. split; [by intros []%elem_of_nil|].
    by intros (x & hs & []%elem_of_nil & _).
  - destruct (f x) as [hs|] eqn:Hx; [|done].
    destruct (flatMapE f l) as [zs|]; [|done].
    intros [= <-]. destruct (IH zs eq_refl) as [Hall Hin]. split.
    + intros x' [->|Hx']%elem_of_cons; [by rewrite Hx|by apply Hall].
    + intros y. rewrite elem_of_app, Hin. split.
      * intros [Hy|(x' & hs' & Hx' & Hf & Hy)].
        -- exists x, hs. split; [left|done].
        -- exists x', hs'. split; [by right|done].
      * intros (x' & hs' & [->|Hx']%elem_of_cons & Hf & Hy).
        -- left. rewrite Hx in Hf. by injection Hf as ->.
        -- right. by exists x', hs'.
Qed.

Lemma flatMapE_total (f : A → option (list B)) (g : A → list B)
    (l : list A) :
  (∀ x, x ∈ l → f x = Some (g x)) → flatMapE f l = Some (flat_map g l).
Proof.
  induction l as [|x l IH]; intros Hall; [done|]. simpl.
  rewrite (Hall x) by left. rewrite IH; [done|].
  intros x' Hx'. apply Hall. by right.
Qed.

Lemma flatMapE_None (f : A → option (list B)) (l : list A) :
  flatMapE f l = None ↔ ∃ x, x ∈ l ∧ f x = None.
Proof.
  induction l as [|x l IH]; simpl.
  - split; [done|]. by intros (x & []%elem_of_nil & _).
  - destruct (f x) as [hs|] eqn:Hx.
    + destruct (flatMapE f l) as [zs|].
      * split; [done|]. intros (x' & [->|Hx']%elem_of_cons & Hf);
          [congruence|].
        assert (Some zs = None) as Hnone; [|done].
        apply IH. by exists x'.
      * split; [|done]. intros _.
        destruct (proj1 IH eq_refl) as (x' & Hx' & Hf).
        exists x'. split; [by right|done].
    + split; [|done]. intros _. exists x. split; [left|done].
Qed.

Lemma filter_sublist_mono (P : A → Prop) `{!∀ x, Decision (P x)}
    (l1 l2 : list A) :
  l1 `sublist_of` l2 → filter P l1 `sublist_of` filter P l2.
Proof.
  induction 1 as [|x l1 l2 _ IH|x l1 l2 _ IH]; [done|..];
    rewrite ?filter_cons; destruct (decide (P x)); try done.
  - by constructor.
  - by constructor.
Qed.

End ListFacts.

(** ** Every hint lists paths of its fragments, in their order *)
Section HintOrderFacts.
Context {ElemID : Type} `{!ElemIDOps ElemID}.

Lemma pathsInOrder_singleton {T} (fragments : list (Fragment T))
    (f : Fragment T) (hint : PathHint) :
  f ∈ fragments → value hint = [f_path f] →
  pathsInOrder (map f_path fragments) hint.
Proof.
  intros Hf Hv. unfold pathsInOrder. rewrite Hv. split; [done|].
  apply singleton_sublist_l, elem_of_map. by exists f.
Qed.

Lemma pathsInOrder_sublist paths paths' hint :
  paths `sublist_of` paths' →
  pathsInOrder paths hint → pathsInOrder paths' hint.
Proof. intros Hsub [Hne Hin]. split; [done|]. by etrans. Qed.

Lemma elem_of_propFragments key fragments f' :
  f' ∈ propFragments key fragments →
  ∃ f, f ∈ fragments ∧ f_path f' = f_path f
       ∧ f_value f' = getProp (f_value f) key.
Proof.
  unfold propFragments. rewrite elem_of_map.
  intros (f & -> & [_ Hf]%list_elem_of_filter). by exists f.
Qed.

Lemma getValuePathHints_rec_paths n : ∀ fragments (elemID : ElemID) hint,
  hint ∈ getValuePathHints_rec n fragments elemID →
  ∃ f, f ∈ fragments ∧ value hint = [f_path f].
Proof.
  induction n as [|n IH]; intros fragments elemID hint Hin.
  - destruct fragments as [|f1 [|f2 fragments]]; simpl in Hin.
    + by apply elem_of_nil in Hin.
    + apply list_elem_of_singleton in Hin as ->. exists f1. split; [left|done].
    + destruct (isPlainObject _ && _); by apply elem_of_nil in Hin.
  - destruct fragments as [|f1 [|f2 fragments]].
    + by apply elem_of_nil in Hin.
    + apply list_elem_of_singleton in Hin as ->. exists f1. split; [left|done].
    + set (fs := f1 :: f2 :: fragments) in *.
      change (getValuePathHints_rec (S n) fs elemID) with
        (if forallb (λ f, isPlainObject (f_value f)) fs then
           flat_map (λ key, getValuePathHints_rec n (propFragments key fs)
                              (createNestedID elemID [key]))
             (uniq (flat_map (λ f, objectKeys (f_value f)) fs))
         else []) in Hin.
      destruct (forallb _ fs); [|by apply elem_of_nil in Hin].
      apply elem_of_flat_map in Hin as (key & _ & Hin).
      apply IH in Hin as (f' & Hf' & Hv).
      apply elem_of_propFragments in Hf' as (f & Hf & Hp & _).
      exists f. split; [done|]. by rewrite Hv, Hp.
Qed.

Lemma getValuePathHints_paths fragments (elemID : ElemID) hint :
  hint ∈ getValuePathHints fragments elemID →
  pathsInOrder (map f_path fragments) hint.
Proof.
  intros (f & Hf & Hv)%getValuePathHints_rec_paths.
  by apply (pathsInOrder_singleton _ f).
Qed.

(** The hints of values computed from fragments of elements, as in
    [getAnnotationPathHints] and for the values of instances. *)
Lemma getValuePathHints_paths_of {T} (val : T → Value)
    (fragments : list (Fragment T)) (elemID : ElemID) hint :
  hint ∈ getValuePathHints
           (map (λ f, mkFragment (val (f_value f)) (f_path f)) fragments)
           elemID →
  pathsInOrder (map f_path fragments) hint.
Proof.
  intros Hin%getValuePathHints_paths.
  by rewrite map_map in Hin.
Qed.

Lemma getAnnotationTypesPathHints_paths
    (fragments : list (Fragment (Element ElemID))) hint :
  hint ∈ getAnnotationTypesPathHints fragments →
  pathsInOrder (map f_path fragments) hint.
Proof.
  unfold getAnnotationTypesPathHints.
  set (fw := filter _ fragments).
  assert (∀ f, f ∈ fw → f ∈ fragments) as Hfw.
  { intros f Hf. by apply list_elem_of_filter in Hf as [_ ?]. }
  assert (hint ∈ flat_map (λ f,
            map (λ annoKey,
                   mkHint
                     (getFullName
                        (createNestedID (elemID (f_value f))
                           ["annotation"; annoKey]))
                     [f_path f])
              (annotationRefTypes (f_value f)).*1) fw →
          pathsInOrder (map f_path fragments) hint) as Hmany.
  { intros (f & Hf & (annoKey & -> & _)%elem_of_map)%elem_of_flat_map.
    apply (pathsInOrder_singleton _ f); [by apply Hfw|done]. }
  destruct fw as [|f [|f' fw]]; [done| |done].
  intros ->%list_elem_of_singleton.
  apply (pathsInOrder_singleton _ f); [apply Hfw; left|done].
Qed.

Lemma getAnnotationPathHints_paths
    (fragments : list (Fragment (Element ElemID))) hints hint :
  getAnnotationPathHints fragments = Some hints → hint ∈ hints →
  pathsInOrder (map f_path fragments) hint.
Proof.
  unfold getAnnotationPathHints. destruct fragments as [|f0 fragments];
    [done|].
  intros [= <-] Hin.
  by apply (getValuePathHints_paths_of (λ e, VObject (annotations e))
              (f0 :: fragments)) in Hin.
Qed.

Lemma getFieldPathHints_paths
    (fragments : list (Fragment (FieldSlot ElemID))) hints hint :
  getFieldPathHints fragments = Some hints → hint ∈ hints →
  pathsInOrder (map f_path fragments) hint.
Proof.
  destruct fragments as [|f1 [|f2 fragments]].
  - by intros [= <-] []%elem_of_nil.
  - unfold getFieldPathHints.
    destruct (slotElemID (f_value f1)); [|done].
    intros [= <-] ->%list_elem_of_singleton.
    apply (pathsInOrder_singleton [f1] f1); [left|done].
  - unfold getFieldPathHints. set (fs := f1 :: f2 :: fragments).
    destruct (slotElemID (f_value f1)) as [fieldID|]; [|done].
    intros [= <-] [Hin | ->%list_elem_of_singleton]%elem_of_app.
    + by apply (getValuePathHints_paths_of slotAnnotations fs) in Hin.
    + by split.
Qed.

Lemma fieldFragments_paths fieldName
    (fragments : list (Fragment (Element ElemID))) :
  map f_path (fieldFragments fieldName fragments)
  `sublist_of` map f_path fragments.
Proof.
  unfold fieldFragments.
  induction fragments as [|f fragments IH]; [done|]. simpl.
  destruct (readField (fields (f_value f)) fieldName); simpl;
    by constructor.
Qed.

Lemma getFieldsPathHints_paths
    (fragments : list (Fragment (Element ElemID))) hints hint :
  getFieldsPathHints fragments = Some hints → hint ∈ hints →
  pathsInOrder (map f_path fragments) hint.
Proof.
  unfold getFieldsPathHints.
  set (fw := filter _ fragments).
  assert (∀ f, f ∈ fw → f ∈ fragments) as Hfw.
  { intros f Hf. by apply list_elem_of_filter in Hf as [_ ?]. }
  assert (flatMapE (λ fieldName,
            getFieldPathHints (fieldFragments fieldName fragments))
            (uniq (flat_map (λ f, (fields (f_value f)).*1) fw))
          = Some hints → hint ∈ hints →
          pathsInOrder (map f_path fragments) hint) as Hmany.
  { intros [_ Hin]%flatMapE_Some
      (fieldName & hs & _ & Hhs & Hhint)%Hin.
    apply (getFieldPathHints_paths _ _ _ Hhs) in Hhint.
    eapply pathsInOrder_sublist; [apply fieldFragments_paths|done]. }
  destruct fw as [|f [|f' fw]]; [done| |done].
  intros [= <-] ->%list_elem_of_singleton.
  apply (pathsInOrder_singleton _ f); [apply Hfw; left|done].
Qed.

(** [getElementPathHints] calls [getAnnotationPathHints] on two fragments
    or more, where it does not throw. *)
Lemma getAnnotationPathHints_is_Some
    (fragments : list (Fragment (Element ElemID))) :
  fragments ≠ [] → is_Some (getAnnotationPathHints fragments).
Proof. destruct fragments; [done|]. by eexists. Qed.

Lemma getElementPathHints_paths
    (fragments : list (Fragment (Element ElemID))) hints hint :
  getElementPathHints fragments = Some hints → hint ∈ hints →
  pathsInOrder (map f_path fragments) hint.
Proof.
  destruct fragments as [|f1 [|f2 fragments]].
  - by intros [= <-] []%elem_of_nil.
  - intros [= <-] ->%list_elem_of_singleton.
    apply (pathsInOrder_singleton _ f1); [left|done].
  - unfold getElementPathHints. cbv zeta.
    set (fs := f1 :: f2 :: fragments).
    destruct (getAnnotationPathHints fs) as [annotationHints|] eqn:Hanno;
      [|done].
    destruct (if forallb (λ f, isObjectType (f_value f)) fs
              then getFieldsPathHints fs else Some [])
      as [fieldHints|] eqn:Hfields; [|done].
    set (valueHints :=
           if forallb (λ f, isInstanceElement (f_value f)) fs
           then getValuePathHints
                  (map (λ f, mkFragment (VObject (instanceValue (f_value f)))
                               (f_path f)) fs)
                  (elemID (f_value f1))
           else []).
    intros Heq. injection Heq as <-. rewrite !elem_of_app.
    intros [Hin|[Hin|[Hin|[Hin|Hin]]]].
    + by apply getAnnotationTypesPathHints_paths.
    + by apply (getAnnotationPathHints_paths fs _ hint Hanno).
    + destruct (forallb _ fs).
      * by apply (getFieldsPathHints_paths fs _ hint Hfields).
      * injection Hfields as <-. by apply elem_of_nil in Hin.
    + subst valueHints.
      destruct (forallb (λ f, isInstanceElement (f_value f)) fs);
        [|by apply elem_of_nil in Hin].
      by apply (getValuePathHints_paths_of
                  (λ e, VObject (instanceValue e)) fs) in Hin.
    + apply list_elem_of_singleton in Hin as ->. by split.
Qed.

Lemma omap_path_filter (elements : list (Element ElemID)) :
  omap path elements
  = map pathOf (filter (λ e, is_Some (path e)) elements).
Proof.
  induction elements as [|e elements IH]; [done|].
  rewrite filter_cons. simpl. unfold pathOf at 1.
  destruct (decide (is_Some (path e))) as [[p Hp]|Hnone].
  - rewrite Hp. simpl. rewrite Hp. simpl. f_equal. apply IH.
  - destruct (path e); [|done]. destruct Hnone. by eexists.
Qed.

Lemma toFragments_paths (elements : list (Element ElemID)) :
  map f_path (toFragments elements) = omap path elements.
Proof.
  unfold toFragments. by rewrite map_map, omap_path_filter.
Qed.

Lemma elem_of_groupBy {T} (keyOf : T → string) (l : list T)
    (entry : string * list T) :
  entry ∈ groupBy keyOf l →
  entry.2 = filter (λ x, keyOf x = entry.1) l
  ∧ ∃ x, x ∈ l ∧ keyOf x = entry.1.
Proof.
  unfold groupBy.
  intros (k & -> & Hk%elem_of_uniq%elem_of_map)%elem_of_map.
  split; [done|]. destruct Hk as (x & -> & Hx). by exists x.
Qed.

Lemma getElementsPathHints_paths
    (unmergedElements : list (Element ElemID)) hints hint :
  getElementsPathHints unmergedElements = Some hints → hint ∈ hints →
  pathsInOrder (omap path unmergedElements) hint.
Proof.
  unfold getElementsPathHints.
  intros [_ Hin]%flatMapE_Some (entry & hs & Hentry & Hhs & Hhint)%Hin.
  apply elem_of_groupBy in Hentry as [Hgroup _].
  apply (getElementPathHints_paths _ _ _ Hhs) in Hhint.
  rewrite toFragments_paths in Hhint.
  eapply pathsInOrder_sublist; [|done].
  rewrite !omap_path_filter, !map_fmap. apply fmap_sublist.
  apply filter_sublist_mono. rewrite Hgroup. apply sublist_filter.
Qed.

Lemma getTopLevelPathHints_paths
    (unmergedElements : list (Element ElemID)) hint :
  hint ∈ getTopLevelPathHints unmergedElements →
  pathsInOrder (omap path unmergedElements) hint.
Proof.
  unfold getTopLevelPathHints. intros Hin.
  apply elem_of_map in Hin as (entry & -> & Hentry).
  apply elem_of_groupBy in Hentry as [Hgroup (x & Hx & Hk)].
  rewrite omap_path_filter. split; simpl.
  - rewrite Hgroup. intros Hnil.
    assert (x ∈ filter (λ e, getFullName (elemID e) = entry.1)
              (filter (λ e, is_Some (path e)) unmergedElements)) as Hin
      by by apply list_elem_of_filter.
    destruct (filter _ (filter _ unmergedElements)); [|done].
    by apply elem_of_nil in Hin.
  - rewrite !map_fmap. apply fmap_sublist. rewrite Hgroup.
    apply sublist_filter.
Qed.

(** C9: every entry that [getElementsPathHints] and
    [getTopLevelPathHints] produce lists at least one path, and lists the
    paths of fragments in the order those fragments have in the input; so
    every key the updater writes is recorded with such a list. *)
Theorem hints_nonempty_in_input_order
    (unmergedElements : list (Element ElemID)) :
  (∀ hint,
     (∃ hints, getElementsPathHints unmergedElements = Some hints
               ∧ hint ∈ hints)
     ∨ hint ∈ getTopLevelPathHints unmergedElements →
     pathsInOrder (omap path unmergedElements) hint)
  ∧ (∀ index ids k paths,
       getElementsPathHints unmergedElements ≫= hintFor k = Some paths →
       (updatePathIndex index unmergedElements ids).2 !! k = Some paths
       ∧ paths ≠ [] ∧ paths `sublist_of` omap path unmergedElements)
  ∧ (∀ index ids k paths,
       hintFor k (getTopLevelPathHints unmergedElements) = Some paths →
       (updateTopLevelPathIndex index unmergedElements ids).2 !! k
       = Some paths
       ∧ paths ≠ [] ∧ paths `sublist_of` omap path unmergedElements).
Proof.
  split; [|split].
  - intros hint [(hints & Hhints & Hin)|Hin].
    + by apply (getElementsPathHints_paths _ hints).
    + by apply getTopLevelPathHints_paths.
  - intros index ids k paths Hfor. split.
    + unfold updatePathIndex. by rewrite lookup_updateIndex, Hfor.
    + destruct (getElementsPathHints unmergedElements) as [hints|] eqn:Hh;
        [|done].
      simpl in Hfor. apply hintFor_Some in Hfor.
      by apply (getElementsPathHints_paths _ hints (mkHint k paths)).
  - intros index ids k paths Hfor. split.
    + unfold updateTopLevelPathIndex. rewrite lookup_updateIndex. simpl.
      by rewrite Hfor.
    + apply hintFor_Some in Hfor.
      by apply (getTopLevelPathHints_paths _ (mkHint k paths)).
Qed.

End HintOrderFacts.

(** ** Hints of fields *)
Section FieldHintFacts.
Context {ElemID : Type} `{!ElemIDOps ElemID}.

Lemma fieldNames_withFields (fragments : list (Fragment (Element ElemID))) :
  flat_map (λ f, (fields (f_value f)).*1)
    (filter (λ f, fields (f_value f) ≠ []) fragments)
  = flat_map (λ f, (fields (f_value f)).*1) fragments.
Proof.
  induction fragments as [|f fragments IH]; [done|].
  rewrite filter_cons. simpl.
  destruct (decide (fields (f_value f) ≠ [])) as [|Hnil]; simpl;
    [by rewrite IH|].
  apply dec_stable in Hnil. by rewrite Hnil, IH.
Qed.

Lemma readField_own (fs : list (string * Field ElemID)) (name : string) :
  name ∉ objectPrototypeNames →
  readField fs name = OwnField <$> assoc name fs.
Proof.
  intros Hname. unfold readField.
  destruct (assoc name fs); [done|]. by rewrite decide_False.
Qed.

Lemma fieldFragments_own (name : string)
    (fragments : list (Fragment (Element ElemID))) :
  name ∉ objectPrototypeNames →
  fieldFragments name fragments
  = map (λ f, mkFragment (OwnField (f_value f)) (f_path f))
      (fragmentsOfField name fragments).
Proof.
  intros Hname. unfold fieldFragments, fragmentsOfField.
  induction fragments as [|f fragments IH]; [done|]. csimpl.
  rewrite readField_own by done.
  destruct (assoc name (fields (f_value f))); csimpl; by rewrite IH.
Qed.

Lemma getFieldPathHints_own (defining : list (Fragment (Field ElemID))) :
  getFieldPathHints
    (map (λ f, mkFragment (OwnField (f_value f)) (f_path f)) defining)
  = Some
      match defining with
      | [] => []
      | [f] => [mkHint (getFullName (field_elemID (f_value f))) [f_path f]]
      | f0 :: _ =>
          getValuePathHints
            (map (λ f, mkFragment (VObject (field_annotations (f_value f)))
                         (f_path f)) defining)
            (field_elemID (f_value f0))
          ++ [mkHint (getFullName (field_elemID (f_value f0)))
                (map f_path defining)]
      end.
Proof.
  destruct defining as [|f0 [|f1 defining]]; [done..|].
  unfold getFieldPathHints. simpl. by rewrite !map_map.
Qed.

(** The field hints are computed, and nothing is thrown, when no field
    has the name of a member of [Object.prototype]. *)
Lemma getFieldsPathHints_is_Some
    (fragments : list (Fragment (Element ElemID))) :
  (∀ f name, f ∈ fragments → name ∈ (fields (f_value f)).*1 →
     name ∉ objectPrototypeNames) →
  is_Some (getFieldsPathHints fragments).
Proof.
  intros Hnames. unfold getFieldsPathHints.
  destruct (filter _ fragments) as [|f [|f' fw]] eqn:Hfw; [|by eexists|].
  all: destruct (flatMapE _ _) as [hints|] eqn:Hflat; [by eexists|].
  all: apply flatMapE_None in Hflat as (name & Hname & Hnone).
  all: apply elem_of_uniq, elem_of_flat_map in Hname as (f0 & Hf0 & Hname).
  all: rewrite fieldFragments_own, getFieldPathHints_own in Hnone;
    [done|].
  all: apply (Hnames f0); [|done].
  all: rewrite <- Hfw in Hf0; by apply list_elem_of_filter in Hf0 as [_ ?].
Qed.

(** C4, as the code has it: when exactly one fragment has fields, the
    field hints are the one hint at [id.field] with the path of that
    fragment; otherwise, when no field has the name of a member of
    [Object.prototype], they are computed over the field names of all
    fragments in the order they are first seen: a field that one fragment
    defines gives the one hint at the id of that field with the path of
    that fragment, and a field that several fragments define gives the
    hints of the annotations of that field and then the hint at the id
    of the field that lists the paths of all the fragments defining it. *)
Theorem getFieldsPathHints_cases
    (fragments : list (Fragment (Element ElemID))) :
  let fragmentsWithFields :=
    filter (λ f, fields (f_value f) ≠ []) fragments in
  let fieldNames :=
    uniq (flat_map (λ f, (fields (f_value f)).*1) fragments) in
  (∀ f, fragmentsWithFields = [f] →
     getFieldsPathHints fragments
     = Some
         [mkHint
            (getFullName (createNestedID (elemID (f_value f)) ["field"]))
            [f_path f]])
  ∧ (length fragmentsWithFields ≠ 1 →
     (∀ name, name ∈ fieldNames → name ∉ objectPrototypeNames) →
     getFieldsPathHints fragments
     = Some
         (flat_map
            (λ name,
               match fragmentsOfField name fragments with
               | [] => []
               | [f] =>
                   [mkHint (getFullName (field_elemID (f_value f)))
                      [f_path f]]
               | f0 :: _ =>
                   getValuePathHints
                     (map (λ f,
                             mkFragment
                               (VObject (field_annotations (f_value f)))
                               (f_path f))
                        (fragmentsOfField name fragments))
                     (field_elemID (f_value f0))
                   ++ [mkHint (getFullName (field_elemID (f_value f0)))
                         (map f_path (fragmentsOfField name fragments))]
               end) fieldNames)).
Proof.
  intros fragmentsWithFields fieldNames. split.
  - intros f Hone. unfold getFieldsPathHints. fold fragmentsWithFields.
    by rewrite Hone.
  - intros Hlen Hnames. subst fieldNames.
    rewrite <- (fieldNames_withFields fragments) in *.
    unfold getFieldsPathHints. fold fragmentsWithFields.
    fold fragmentsWithFields in Hnames.
    assert (∀ names, (∀ name, name ∈ names →
                        name ∉ objectPrototypeNames) →
              flatMapE (λ fieldName,
                getFieldPathHints (fieldFragments fieldName fragments))
                names
              = Some (flat_map (λ name,
                  match fragmentsOfField name fragments with
                  | [] => []
                  | [f] =>
                      [mkHint (getFullName (field_elemID (f_value f)))
                         [f_path f]]
                  | f0 :: _ =>
                      getValuePathHints
                        (map (λ f,
                                mkFragment
                                  (VObject (field_annotations (f_value f)))
                                  (f_path f))
                           (fragmentsOfField name fragments))
                        (field_elemID (f_value f0))
                      ++ [mkHint (getFullName (field_elemID (f_value f0)))
                            (map f_path (fragmentsOfField name fragments))]
                  end) names)) as Hflat.
    { intros names Hown. apply flatMapE_total. intros name Hname.
      rewrite fieldFragments_own by by apply Hown.
      apply getFieldPathHints_own. }
    clearbody fragmentsWithFields.
    destruct fragmentsWithFields as [|f [|f' l]];
      [by apply Hflat|by destruct Hlen|by apply Hflat].
Qed.

End FieldHintFacts.

(** ** The catch-all hint of an element *)
Section CatchAllFacts.
Context {ElemID : Type} `{!ElemIDOps ElemID}.
Implicit Types (index : PathIndex) (idParts : list string).

Lemma hintFor_last entries e :
  last entries = Some e → hintFor (key e) entries = Some (value e).
Proof.
  intros (l & ->)%last_Some. rewrite hintFor_snoc. by rewrite decide_True.
Qed.

Lemma getElementPathHints_last
    (fragments : list (Fragment (Element ElemID))) (f0 : Fragment _)
    hints :
  head fragments = Some f0 →
  getElementPathHints fragments = Some hints →
  last hints
  = Some (mkHint (getFullName (elemID (f_value f0)))
            (map f_path fragments)).
Proof.
  destruct fragments as [|f1 [|f2 fragments]];
    [done|by intros [= ->] [= <-]|].
  intros [= ->]. unfold getElementPathHints. cbv zeta.
  destruct (getAnnotationPathHints _); [|done].
  destruct (if forallb _ _ then _ else _); [|done].
  intros [= <-]. by rewrite !app_assoc, last_snoc.
Qed.

(** The hints of two fragments or more are computed when the field hints
    are. *)
Lemma getElementPathHints_is_Some
    (fragments : list (Fragment (Element ElemID))) :
  is_Some (getFieldsPathHints fragments) →
  is_Some (getElementPathHints fragments).
Proof.
  intros [fieldHints Hfields].
  destruct fragments as [|f1 [|f2 fragments]]; [by eexists..|].
  unfold getElementPathHints. cbv zeta. rewrite Hfields.
  destruct (getAnnotationPathHints _) eqn:Hanno; [|done].
  destruct (forallb (λ f, isObjectType (f_value f)) _); by eexists.
Qed.

(** A key recorded with a path at or above the id stops the lookup with a
    result that is not empty, if no truncation above it is the top-level
    key. *)
Lemma loop_reaches fuel : ∀ index top idParts exact m hint hints,
  length idParts < fuel →
  m = length idParts ∨ 0 < m < length idParts →
  index !! join "." (take m idParts) = Some (hint :: hints) →
  (∀ n, m < n ≤ length idParts → join "." (take n idParts) ≠ top) →
  ∃ r rs,
    getFromPathIndex_loop fuel index top idParts exact = Some (r :: rs).
Proof.
  induction fuel as [|fuel IH];
    intros index top idParts exact m hint hints Hfuel Hm Hhit Habove; [lia|].
  destruct (index !! join "." idParts) as [[|r rs]|] eqn:Hk.
  - destruct Hm as [->|Hm];
      [rewrite firstn_all in Hhit; congruence|].
    rewrite loop_continue; [|by right|lia|].
    + apply (IH _ _ _ _ m hint hints).
      * rewrite length_pop. lia.
      * rewrite length_pop. lia.
      * rewrite pop_take, take_take. by replace (m `min` _) with m by lia.
      * intros n Hn. rewrite length_pop in Hn.
        rewrite pop_take, take_take.
        replace (n `min` _) with n by lia. apply Habove. lia.
    + rewrite <- (firstn_all idParts) at 1. apply Habove. lia.
  - rewrite (loop_hit _ _ _ _ _ _ _ Hk). destruct exact; by eexists _, _.
  - destruct Hm as [->|Hm];
      [rewrite firstn_all in Hhit; congruence|].
    rewrite loop_continue; [|by left|lia|].
    + apply (IH _ _ _ _ m hint hints).
      * rewrite length_pop. lia.
      * rewrite length_pop. lia.
      * rewrite pop_take, take_take. by replace (m `min` _) with m by lia.
      * intros n Hn. rewrite length_pop in Hn.
        rewrite pop_take, take_take.
        replace (n `min` _) with n by lia. apply Habove. lia.
    + rewrite <- (firstn_all idParts) at 1. apply Habove. lia.
Qed.

Lemma join_extension_ne (parts rest : list string) (n k : nat) :
  parts ≠ [] → length parts < n →  n ≤ length (parts ++ rest) →
  join "." (take n (parts ++ rest)) ≠ join "." (take k parts).
Proof.
  intros Hne Hn Hn' Heq.
  rewrite take_app_ge in Heq by lia.
  assert (take (n - length parts) rest ≠ []) as Hrest.
  { rewrite length_app in Hn'. intros Hnil%(f_equal length).
    rewrite length_take in Hnil. simpl in Hnil. lia. }
  pose proof (length_join_app _ _ Hne Hrest) as Hlt.
  pose proof (length_join_take k parts) as Hle.
  rewrite Heq in Hlt. lia.
Qed.

(** X20: the hints of a non-empty list of fragments of one element,
    none of which has a field with the name of a member of
    [Object.prototype], are computed and end with the hint of the id of that element, which
    lists the paths of all the fragments in order; once the hints are
    written to a store, the lookup of that id gives those paths, and the
    lookup of an id below it gives at least one path. *)
Theorem getElementPathHints_catch_all
    (fragments : list (Fragment (Element ElemID))) (id : ElemID) :
  fragments ≠ [] →
  (∀ f, f ∈ fragments → elemID (f_value f) = id) →
  (∀ f name, f ∈ fragments → name ∈ (fields (f_value f)).*1 →
     name ∉ objectPrototypeNames) →
  getFullName id = join "." (getFullNameParts id) →
  ∃ hints,
    getElementPathHints fragments = Some hints
    ∧ last hints = Some (mkHint (getFullName id) (map f_path fragments))
    ∧ (∀ index,
         getFromPathIndex id (setAll hints index) = map f_path fragments)
    ∧ (∀ index (d : ElemID) rest k,
         getFullNameParts id ≠ [] →
         getFullNameParts d = getFullNameParts id ++ rest →
         getFullName (createTopLevelParentID d).1
         = join "." (take k (getFullNameParts id)) →
         getFromPathIndex d (setAll hints index) ≠ []).
Proof.
  intros Hne Hshare Hown Hname.
  destruct (getElementPathHints_is_Some fragments
              (getFieldsPathHints_is_Some fragments Hown))
    as [hints Hhints].
  exists hints. split; [done|].
  destruct fragments as [|f0 rest0] eqn:Hfs; [done|]. rewrite <- Hfs in *.
  assert (head fragments = Some f0) as Hhead by by rewrite Hfs.
  pose proof (getElementPathHints_last _ _ _ Hhead Hhints) as Hlast.
  rewrite (Hshare f0) in Hlast by (rewrite Hfs; left).
  assert (∀ index, setAll hints index !! join "." (getFullNameParts id)
                   = Some (map f_path fragments)) as Hlookup.
  { intros index. rewrite lookup_setAll, <- Hname.
    pose proof (hintFor_last _ _ Hlast) as Hfor. simpl in Hfor.
    by rewrite Hfor. }
  assert (map f_path fragments ≠ []) as Hpaths by by rewrite Hfs.
  split; [done|]. split.
  - intros index.
    by apply getFromPathIndex_exact.
  - intros index d rest k Hparts Hd Htop.
    pose proof (getFromPathIndex_loop_eq d (setAll hints index)) as Heq.
    destruct (map f_path fragments) as [|p ps] eqn:Hmap; [done|].
    destruct (loop_reaches (S (length (getFullNameParts d)))
                (setAll hints index)
                (getFullName (createTopLevelParentID d).1)
                (getFullNameParts d) true
                (length (getFullNameParts id)) p ps) as (r & rs & Hr).
    + lia.
    + rewrite Hd, length_app. destruct rest; simpl; [left; lia|right].
      destruct (getFullNameParts id); [done|]. simpl. lia.
    + rewrite Hd, take_app_length. apply Hlookup.
    + intros n Hn. rewrite Htop, Hd. apply join_extension_ne; try done.
      * lia.
      * rewrite <- Hd. lia.
    + rewrite Hr in Heq. by injection Heq as <-.
Qed.

End CatchAllFacts.

(** ** The keys of the hints *)
Section HintKeyFacts.
Context {ElemID : Type} `{!ElemIDOps ElemID}.

Lemma valueIds_trans (base mid d : ElemID) :
  valueIds base mid → valueIds mid d → valueIds base d.
Proof. intros Hmid Hd. induction Hd; [done|by constructor]. Qed.

Lemma getValuePathHints_rec_keys n : ∀ fragments (elemID : ElemID) hint,
  hint ∈ getValuePathHints_rec n fragments elemID →
  ∃ d, valueIds elemID d ∧ key hint = getFullName d.
Proof.
  induction n as [|n IH]; intros fragments elemID hint Hin.
  - destruct fragments as [|f1 [|f2 fragments]]; simpl in Hin.
    + by apply elem_of_nil in Hin.
    + apply list_elem_of_singleton in Hin as ->.
      exists elemID. split; [constructor|done].
    + destruct (isPlainObject _ && _); by apply elem_of_nil in Hin.
  - destruct fragments as [|f1 [|f2 fragments]].
    + by apply elem_of_nil in Hin.
    + apply list_elem_of_singleton in Hin as ->.
      exists elemID. split; [constructor|done].
    + set (fs := f1 :: f2 :: fragments) in *.
      change (getValuePathHints_rec (S n) fs elemID) with
        (if forallb (λ f, isPlainObject (f_value f)) fs then
           flat_map (λ key, getValuePathHints_rec n (propFragments key fs)
                              (createNestedID elemID [key]))
             (uniq (flat_map (λ f, objectKeys (f_value f)) fs))
         else []) in Hin.
      destruct (forallb _ fs); [|by apply elem_of_nil in Hin].
      apply elem_of_flat_map in Hin as (k & _ & Hin).
      apply IH in Hin as (d & Hd & Hkey).
      exists d. split; [|done].
      eapply valueIds_trans; [|done]. constructor. constructor.
Qed.

Lemma elem_of_fieldFragments fieldName
    (fragments : list (Fragment (Element ElemID))) ff :
  ff ∈ fieldFragments fieldName fragments →
  ∃ f, f ∈ fragments
       ∧ readField (fields (f_value f)) fieldName = Some (f_value ff).
Proof.
  unfold fieldFragments. rewrite list_elem_of_omap.
  intros (f & Hf & Hff). exists f. split; [done|].
  destruct (readField (fields (f_value f)) fieldName); [|done].
  simpl in Hff. by injection Hff as <-.
Qed.

Lemma readField_OwnField (fs : list (string * Field ElemID)) name fld :
  readField fs name = Some (OwnField fld) → assoc name fs = Some fld.
Proof.
  unfold readField. destruct (assoc name fs); [by intros [= ->]|].
  by destruct (decide _).
Qed.

Lemma getFieldPathHints_keys
    (fragments : list (Fragment (FieldSlot ElemID))) hints hint :
  getFieldPathHints fragments = Some hints → hint ∈ hints →
  ∃ ff fld d, ff ∈ fragments ∧ f_value ff = OwnField fld
              ∧ valueIds (field_elemID fld) d
              ∧ key hint = getFullName d.
Proof.
  destruct fragments as [|f1 [|f2 fragments]].
  - by intros [= <-] []%elem_of_nil.
  - unfold getFieldPathHints.
    destruct (f_value f1) as [fld|] eqn:Hf1; [|done]. simpl.
    intros [= <-] ->%list_elem_of_singleton.
    exists f1, fld, (field_elemID fld).
    split; [left|]. split; [done|]. split; [constructor|done].
  - unfold getFieldPathHints.
    destruct (f_value f1) as [fld|] eqn:Hf1; [|done]. simpl slotElemID.
    cbv iota beta.
    intros [= <-] [Hin | ->%list_elem_of_singleton]%elem_of_app.
    + apply getValuePathHints_rec_keys in Hin as (d & Hd & Hkey).
      exists f1, fld, d. split; [left|done].
    + exists f1, fld, (field_elemID fld).
      split; [left|]. split; [done|]. split; [constructor|done].
Qed.

Lemma getElementPathHints_keys
    (fragments : list (Fragment (Element ElemID))) hints hint :
  getElementPathHints fragments = Some hints → hint ∈ hints →
  ∃ f d, f ∈ fragments ∧ hintIds (f_value f) d
         ∧ key hint = getFullName d.
Proof.
  destruct fragments as [|f1 [|f2 fragments]].
  - by intros [= <-] []%elem_of_nil.
  - intros [= <-] ->%list_elem_of_singleton.
    exists f1, (elemID (f_value f1)). split; [left|].
    split; [constructor|done].
  - unfold getElementPathHints. cbv zeta.
    set (fs := f1 :: f2 :: fragments).
    assert (f1 ∈ fs) as Hf1 by left.
    destruct (getAnnotationPathHints fs) as [annotationHints|] eqn:Hanno;
      [|done].
    destruct (if forallb (λ f, isObjectType (f_value f)) fs
              then getFieldsPathHints fs else Some [])
      as [fieldHints|] eqn:Hfields; [|done].
    set (valueHints :=
           if forallb (λ f, isInstanceElement (f_value f)) fs
           then getValuePathHints
                  (map (λ f, mkFragment (VObject (instanceValue (f_value f)))
                               (f_path f)) fs)
                  (elemID (f_value f1))
           else []).
    intros Heq. injection Heq as <-.
    rewrite !elem_of_app. intros [Hin|[Hin|[Hin|[Hin|Hin]]]].
    + unfold getAnnotationTypesPathHints in Hin.
      set (fw := filter _ fs) in Hin.
      assert (∀ f, f ∈ fw →
                f ∈ fs ∧ annotationRefTypes (f_value f) ≠ []) as Hfw.
      { intros f Hf. by apply list_elem_of_filter in Hf as [? ?]. }
      assert (hint ∈ flat_map (λ f,
                map (λ annoKey,
                       mkHint
                         (getFullName
                            (createNestedID (elemID (f_value f))
                               ["annotation"; annoKey]))
                         [f_path f])
                  (annotationRefTypes (f_value f)).*1) fw →
              ∃ f d, f ∈ fs ∧ hintIds (f_value f) d
                     ∧ key hint = getFullName d) as Hmany.
      { intros (f & Hf & (annoKey & -> & Hk)%elem_of_map)%elem_of_flat_map.
        exists f, (createNestedID (elemID (f_value f))
                     ["annotation"; annoKey]).
        split; [by apply Hfw|]. split; [by constructor|done]. }
      destruct fw as [|f [|f' fw]]; [by apply Hmany| |by apply Hmany].
      apply list_elem_of_singleton in Hin as ->.
      destruct (Hfw f ltac:(left)) as [Hf Htypes].
      exists f, (createNestedID (elemID (f_value f)) ["annotation"]).
      split; [done|]. split; [by constructor|done].
    + unfold getAnnotationPathHints in Hanno. subst fs.
      injection Hanno as <-.
      apply getValuePathHints_rec_keys in Hin as (d & Hd & Hkey).
      exists f1, d. split; [done|]. split; [|done].
      by apply hintIds_annotations.
    + destruct (forallb _ fs);
        [|injection Hfields as <-; by apply elem_of_nil in Hin].
      unfold getFieldsPathHints in Hfields.
      set (fw := filter _ fs) in Hfields.
      assert (∀ f, f ∈ fw → f ∈ fs ∧ fields (f_value f) ≠ []) as Hfw.
      { intros f Hf. by apply list_elem_of_filter in Hf as [? ?]. }
      assert (flatMapE (λ fieldName,
                getFieldPathHints (fieldFragments fieldName fs))
                (uniq (flat_map (λ f, (fields (f_value f)).*1) fw))
              = Some fieldHints →
              ∃ f d, f ∈ fs ∧ hintIds (f_value f) d
                     ∧ key hint = getFullName d) as Hmany.
      { intros [_ Hflat]%flatMapE_Some.
        apply Hflat in Hin as (fieldName & hs & _ & Hhs & Hh).
        apply (getFieldPathHints_keys _ _ _ Hhs) in Hh
          as (ff & fld & d & Hff & Hown & Hd & Hkey).
        apply elem_of_fieldFragments in Hff as (f & Hf & Hfld).
        rewrite Hown in Hfld. apply readField_OwnField in Hfld.
        exists f, d. split; [done|]. split; [|done].
        by apply (hintIds_field _ fieldName fld). }
      destruct fw as [|f [|f' fw]]; [by apply Hmany| |by apply Hmany].
      injection Hfields as <-.
      apply list_elem_of_singleton in Hin as ->.
      destruct (Hfw f ltac:(left)) as [Hf Hflds].
      exists f, (createNestedID (elemID (f_value f)) ["field"]).
      split; [done|]. split; [by constructor|done].
    + subst valueHints.
      destruct (forallb (λ f, isInstanceElement (f_value f)) fs) eqn:Hall;
        [|by apply elem_of_nil in Hin].
      apply getValuePathHints_rec_keys in Hin as (d & Hd & Hkey).
      exists f1, d. split; [done|]. split; [|done].
      apply hintIds_value; [|done].
      subst fs. simpl in Hall. by apply andb_true_iff in Hall as [? _].
    + apply list_elem_of_singleton in Hin as ->.
      exists f1, (elemID (f_value f1)). split; [done|].
      split; [constructor|done].
Qed.

Lemma elem_of_toFragments (elements : list (Element ElemID)) f :
  f ∈ toFragments elements → f_value f ∈ elements.
Proof.
  unfold toFragments.
  by intros (e & -> & [_ He]%list_elem_of_filter)%elem_of_map.
Qed.

Lemma getElementsPathHints_keys (elements : list (Element ElemID))
    hints hint :
  getElementsPathHints elements = Some hints → hint ∈ hints →
  ∃ e d, e ∈ elements ∧ hintIds e d ∧ key hint = getFullName d.
Proof.
  unfold getElementsPathHints.
  intros [_ Hflat]%flatMapE_Some (entry & hs & Hentry & Hhs & Hin)%Hflat.
  apply elem_of_groupBy in Hentry as [Hgroup _].
  apply (getElementPathHints_keys _ _ _ Hhs) in Hin
    as (f & d & Hf & Hd & Hkey).
  apply elem_of_toFragments in Hf. rewrite Hgroup in Hf.
  apply list_elem_of_filter in Hf as [_ Hf].
  by exists (f_value f), d.
Qed.

Lemma getTopLevelPathHints_keys (elements : list (Element ElemID)) hint :
  hint ∈ getTopLevelPathHints elements →
  ∃ e, e ∈ elements ∧ key hint = getFullName (elemID e).
Proof.
  unfold getTopLevelPathHints.
  intros (entry & -> & Hentry)%elem_of_map.
  apply elem_of_groupBy in Hentry as [_ (e & He & Hk)].
  apply list_elem_of_filter in He as [_ He]. by exists e.
Qed.

(** What [updateIndex] leaves in the store, for hints whose keys have
    their top-level parent among the known ids. *)
Lemma updateIndex_pruned index changed known
    (hintFn : list (Element ElemID) → option (list PathHint)) k :
  (∀ hints hint, hintFn changed = Some hints → hint ∈ hints →
     topLevelNameOfKey (key hint) ∈ known) →
  is_Some ((updateIndex index changed (Some known) hintFn).2 !! k) →
  topLevelNameOfKey k ∈ known.
Proof.
  intros Hhints. rewrite lookup_updateIndex, lookup_prune.
  destruct (hintFn changed) as [hints|] eqn:Hfn; simpl.
  - destruct (hintFor k hints) as [paths|] eqn:Hfor.
    + intros _. apply hintFor_Some in Hfor.
      by apply (Hhints hints) in Hfor.
    + destruct (decide (topLevelNameOfKey k ∈ known)); [done|].
      by intros [? ?].
  - destruct (decide (topLevelNameOfKey k ∈ known)); [done|].
    by intros [? ?].
Qed.

(** C7: after an update with known ids, if the top-level parent of every
    changed fragment is among the known ids, and the ids the hints of a
    fragment are computed at parse back to the top-level parent of the
    fragment, then every key of the store has its top-level parent among
    the known ids. *)
Theorem updateIndex_pruning_invariant
    (index : PathIndex) (changed : list (Element ElemID))
    (known : gset string) :
  (∀ e, e ∈ changed →
     getFullName (createTopLevelParentID (elemID e)).1 ∈ known) →
  (∀ e d, e ∈ changed → hintIds e d →
     topLevelNameOfKey (getFullName d)
     = getFullName (createTopLevelParentID (elemID e)).1) →
  ∀ k,
    is_Some ((updatePathIndex index changed (Some known)).2 !! k)
    ∨ is_Some
        ((updateTopLevelPathIndex index changed (Some known)).2 !! k) →
    topLevelNameOfKey k ∈ known.
Proof.
  intros Hknown Hparse k [Hk|Hk].
  - revert Hk. apply updateIndex_pruned.
    intros hints hint Hhints Hin.
    apply (getElementsPathHints_keys _ _ _ Hhints) in Hin
      as (e & d & He & Hd & ->).
    rewrite (Hparse e d He Hd). by apply Hknown.
  - revert Hk. apply updateIndex_pruned.
    intros hints hint [= <-] (e & He & ->)%getTopLevelPathHints_keys.
    rewrite (Hparse e (elemID e) He (hintIds_element e)). by apply Hknown.
Qed.

End HintKeyFacts.

(** ** Splitting *)
Section SplitFacts.
Context {ElemID : Type} `{!ElemIDOps ElemID}.
Variable filterByID :
  ElemID → Element ElemID → (ElemID → bool) → option (Element ElemID).


Lemma omap_id_map {T U} (g : T → option U) (l : list T) :
  omap id (map g l) = omap g l.
Proof.
  induction l as [|x l IH]; [done|].
  change (omap id (map g (x :: l)))
    with (match g x with
          | Some y => y :: omap id (map g l)
          | None => omap id (map g l)
          end).
  rewrite IH. simpl. by destruct (g x).
Qed.

Lemma omap_tagged_sublist (g : Path → option (Element ElemID))
    (tags : list Path) :
  omap path (omap (λ hint, withPath (Some hint) <$> g hint) tags)
  `sublist_of` tags.
Proof.
  induction tags as [|hint tags IH]; [done|]. simpl.
  destruct (g hint); simpl; by constructor.
Qed.


End SplitFacts.

(** ** Filtering *)
Section FilterFacts.
Context {ElemID : Type} `{!ElemIDOps ElemID}.
Implicit Types (keep : ElemID → bool) (props : Values).

















End FilterFacts.

(** ** The properties on the samples *)
Section SampleFacts.
Import SegmentID Samples.

Lemma valueIds_segments (base d : list string) :
  valueIds base d → ∃ ks, d = base ++ ks.
Proof.
  induction 1 as [|d k _ [ks ->]].
  - exists []. by rewrite app_nil_r.
  - exists (ks ++ [k]). simpl. by rewrite app_assoc.
Qed.

Lemma samples_known (e : Element (list string)) :
  e ∈ [obj1; obj3; inst1; inst2] →
  getFullName (createTopLevelParentID (elemID e)).1 ∈ knownIds.
Proof.
  intros He. unfold knownIds.
  repeat (apply elem_of_cons in He as [->|He]);
    [| | | |by apply elem_of_nil in He].
  all: vm_compute getFullName; set_solver.
Qed.

Lemma samples_parse_back (e : Element (list string)) (d : list string) :
  e ∈ [obj1; obj3; inst1; inst2] → hintIds e d →
  topLevelNameOfKey (getFullName d)
  = getFullName (createTopLevelParentID (elemID e)).1.
Proof.
  intros He Hd.
  repeat (apply elem_of_cons in He as [->|He]);
    [| | | |by apply elem_of_nil in He].
  all: inversion Hd as [|Hanno|annoKey Hanno|d' Hids|Hflds
                        |fieldName fld d' Hfld Hids|d' Hinst Hids]; subst.
  all: try done.
  all: try (vm_compute; reflexivity).
  all: try (by apply elem_of_nil in Hanno).
  all: try (cbn in Hfld; repeat (case_decide; simplify_eq)).
  all: apply valueIds_segments in Hids as [[|k ks] ->];
    vm_compute; reflexivity.
Qed.

(** C1 on the samples: an exact key with paths, an ancestor found after
    two truncations, and a lookup that ends at the top-level key. *)
Lemma getFromPathIndex_cases_witness :
  getFromPathIndex objID emptyEntryIndex = [["f1"]; ["f2"]]
  ∧ getFromPathIndex (objID ++ ["attr"; "b"]) emptyEntryIndex = [["f1"]]
  ∧ getFromPathIndex instID emptyEntryIndex = [].
Proof.
  split; [|split].
  - apply (proj1 (getFromPathIndex_cases objID emptyEntryIndex));
      [reflexivity|discriminate].
  - apply (proj1 (proj2 (getFromPathIndex_cases (objID ++ ["attr"; "b"])
                           emptyEntryIndex)) 2 ["f1"] [["f2"]]).
    + simpl. lia.
    + intros i Hi. assert (i = 0 ∨ i = 1) as [-> | ->] by lia;
        (split; [left; reflexivity|discriminate]).
    + reflexivity.
  - apply (proj2 (proj2 (getFromPathIndex_cases instID emptyEntryIndex))).
    intros j Hj Htop. simpl in Hj.
    destruct j as [|j]; [left; reflexivity|].
    by destruct (Htop 0 ltac:(lia)).
Defined.

(** C1 as stated fails: the exact key of [salto.obj.attr.a] is present,
    recorded with the empty list, and the lookup returns the first path of
    [salto.obj] instead of that list. *)
Lemma getFromPathIndex_exact_counterexample :
  ¬ (∀ (elemID : list string) (index : PathIndex) (hints : list Path),
       index !! join "." (getFullNameParts elemID) = Some hints →
       getFromPathIndex elemID index = hints).
Proof.
  intros Hclaim.
  specialize (Hclaim (objID ++ ["attr"; "a"]) emptyEntryIndex [] eq_refl).
  vm_compute in Hclaim. discriminate.
Qed.


Lemma sample_names_own (names : list string) (name : string) :
  forallb (λ n, bool_decide (n ∉ objectPrototypeNames)) names = true →
  name ∈ names → name ∉ objectPrototypeNames.
Proof.
  intros Hall Hin. rewrite forallb_forall in Hall.
  apply list_elem_of_In, Hall in Hin. by apply bool_decide_eq_true in Hin.
Qed.

(** X20 on two fragments of the instance. *)
Lemma getElementPathHints_catch_all_witness :
  ∃ hints,
    getElementPathHints [fragmentOf inst1; fragmentOf inst2] = Some hints
    ∧ last hints = Some (mkHint "salto.obj.inst" [["f1"]; ["f2"]])
    ∧ getFromPathIndex instID (setAll hints staleIndex)
      = [["f1"]; ["f2"]]
    ∧ getFromPathIndex (instID ++ ["c"; "d"]) (setAll hints staleIndex)
      ≠ [].
Proof.
  destruct (getElementPathHints_catch_all
              [fragmentOf inst1; fragmentOf inst2] instID)
    as (hints & Hhints & Hlast & Hexact & Hbelow).
  - discriminate.
  - intros f Hf.
    repeat (apply elem_of_cons in Hf as [->|Hf]); try reflexivity.
    by apply elem_of_nil in Hf.
  - intros f name Hf Hname.
    repeat (apply elem_of_cons in Hf as [->|Hf]);
      by apply elem_of_nil in Hname || by apply elem_of_nil in Hf.
  - reflexivity.
  - exists hints. split; [exact Hhints|]. split; [exact Hlast|].
    split; [apply Hexact|].
    apply (Hbelow staleIndex (instID ++ ["c"; "d"]) ["c"; "d"] 3);
      [discriminate|reflexivity|reflexivity].
Defined.

(** C2 fails on two fragments of the object type [salto.obj], the first
    with field [x] and the second with a field named [constructor]:
    reading [fields["constructor"]] in the first fragment finds the
    member that the record inherits from [Object.prototype], which has no
    id, and the call throws before the hint of the id of the element is
    made.  The update is rejected, nothing is written, and the lookup of
    the id finds nothing. *)
Theorem getElementPathHints_inherited_field :
  getElementPathHints [fragmentOf objX; fragmentOf objConstructor] = None
  ∧ getElementsPathHints [objX; objConstructor] = None
  ∧ updatePathIndex ∅ [objX; objConstructor] None = (Rejected, ∅)
  ∧ getFromPathIndex objID
      (updatePathIndex ∅ [objX; objConstructor] None).2 = [].
Proof.
  assert (getElementPathHints [fragmentOf objX; fragmentOf objConstructor]
          = None) as Hthrows by reflexivity.
  split; [exact Hthrows|].
  assert (getElementsPathHints [objX; objConstructor] = None) as Hall.
  { unfold getElementsPathHints. apply flatMapE_None.
    exists ("salto.obj", [objX; objConstructor]).
    split; [|exact Hthrows]. vm_compute. left. }
  split; [exact Hall|].
  unfold updatePathIndex, updateIndex. rewrite Hall.
  split; reflexivity.
Qed.

(** C3 fails on two plain objects, the first with the key [constructor]
    and the second with the key [b]: the second fragment does not define
    [constructor], but reading that key in it finds the member inherited
    from [Object.prototype], so it is not skipped; the two values
    disagree in shape and no hint is made at [constructor], where the
    hints as specified have the path of the first fragment. *)
Theorem getValuePathHints_inherited_key :
  getValuePathHints constructorKeyFragments instID
  = [mkHint "salto.obj.inst.b" [["f2"]]]
  ∧ hintsForValue constructorKeyFragments instID
    = [mkHint "salto.obj.inst.constructor" [["f1"]];
       mkHint "salto.obj.inst.b" [["f2"]]]
  ∧ propFragments "constructor" constructorKeyFragments
    = [mkFragment (VPrimitive "x") ["f1"];
       mkFragment (VFunction "constructor") ["f2"]].
Proof. split; [|split]; reflexivity. Qed.

(** C4 on the fragments of the object type: one fragment with fields,
    then two. *)
Lemma getFieldsPathHints_cases_witness :
  getFieldsPathHints [fragmentOf obj1; fragmentOf obj2]
  = Some [mkHint "salto.obj.field" [["f1"]]]
  ∧ getFieldsPathHints [fragmentOf obj1; fragmentOf obj2; fragmentOf obj3]
    = Some [mkHint "salto.obj.field.a.label" [["f1"]];
            mkHint "salto.obj.field.a.help" [["f3"]];
            mkHint "salto.obj.field.a" [["f1"]; ["f3"]];
            mkHint "salto.obj.field.b" [["f3"]]].
Proof.
  split.
  - exact (proj1 (getFieldsPathHints_cases
                    [fragmentOf obj1; fragmentOf obj2]) (fragmentOf obj1)
             eq_refl).
  - etrans.
    + apply (proj2 (getFieldsPathHints_cases
                [fragmentOf obj1; fragmentOf obj2; fragmentOf obj3])).
      * vm_compute. discriminate.
      * intros name. apply sample_names_own. reflexivity.
    + reflexivity.
Defined.

(** C4 as stated fails: of two fragments of [salto.obj] only the first
    has a field, [a]; the hints have no entry at the id of that field. *)
Lemma getFieldsPathHints_single_counterexample :
  ¬ (∀ (fragments : list (Fragment (Element (list string))))
       (fieldName : string) (f : Fragment (Field (list string))),
       2 ≤ length fragments →
       forallb (λ f, isObjectType (f_value f)) fragments = true →
       fragmentsOfField fieldName fragments = [f] →
       ∃ hints,
         getFieldsPathHints fragments = Some hints
         ∧ mkHint (getFullName (field_elemID (f_value f))) [f_path f]
           ∈ hints).
Proof.
  intros Hclaim.
  destruct (Hclaim [fragmentOf obj1; fragmentOf obj2] "a"
              (mkFragment (fieldA [("label", VPrimitive "A")]) ["f1"])
              ltac:(simpl; lia) eq_refl eq_refl)
    as (hints & Hhints & Hin).
  vm_compute in Hhints. injection Hhints as <-.
  apply list_elem_of_In in Hin. vm_compute in Hin.
  destruct Hin as [Heq|[]]. discriminate.
Qed.

(** C7 on the samples: the stale key of [salto.gone] is pruned, and the
    keys written have their top-level parent among the known ids. *)
Lemma updateIndex_pruning_invariant_witness :
  (∀ e, e ∈ [obj1; obj3; inst1; inst2] →
     getFullName (createTopLevelParentID (elemID e)).1 ∈ knownIds)
  ∧ is_Some ((updatePathIndex staleIndex [obj1; obj3; inst1; inst2]
                (Some knownIds)).2 !! "salto.obj.field.a.help")
  ∧ topLevelNameOfKey "salto.obj.field.a.help" ∈ knownIds.
Proof.
  split; [apply samples_known|].
  assert (is_Some ((updatePathIndex staleIndex [obj1; obj3; inst1; inst2]
                      (Some knownIds)).2 !! "salto.obj.field.a.help"))
    as Hk.
  { vm_compute. by eexists. }
  split; [exact Hk|].
  apply (updateIndex_pruning_invariant staleIndex
           [obj1; obj3; inst1; inst2] knownIds
           samples_known samples_parse_back "salto.obj.field.a.help").
  by left.
Defined.


(** C9 on the samples. *)
Lemma hints_nonempty_in_input_order_witness :
  (∃ hints,
     getElementsPathHints [obj1; inst1; inst3; inst2] = Some hints
     ∧ mkHint "salto.obj.inst" [["f1"]; ["f2"]] ∈ hints)
  ∧ pathsInOrder [["f1"]; ["f1"]; ["f2"]]
      (mkHint "salto.obj.inst" [["f1"]; ["f2"]]).
Proof.
  assert (∃ hints,
            getElementsPathHints [obj1; inst1; inst3; inst2] = Some hints
            ∧ mkHint "salto.obj.inst" [["f1"]; ["f2"]] ∈ hints) as Hin.
  { eexists. split; [vm_compute; reflexivity|].
    apply list_elem_of_In. simpl. tauto. }
  split; [exact Hin|].
  apply (proj1 (hints_nonempty_in_input_order [obj1; inst1; inst3; inst2])).
  by left.
Defined.

End SampleFacts.

(** * Further properties *)

(** ** What a lookup can return *)
Section LookupMoreFacts.
Context {ElemID : Type} `{!ElemIDOps ElemID}.
Implicit Types (index : PathIndex) (idParts : list string) (top : string).

Lemma loop_inexact_length fuel : ∀ index top idParts r,
  getFromPathIndex_loop fuel index top idParts false = Some r →
  length r ≤ 1.
Proof.
  induction fuel as [|fuel IH]; intros index top idParts r; [done|].
  simpl.
  destruct (index !! join "." idParts) as [[|hint hints]|].
  2: { intros [= <-]. simpl. lia. }
  all: destruct (_ && _); [apply IH|intros [= <-]; simpl; lia].
Qed.

Lemma loop_recorded fuel : ∀ index top idParts exact r p,
  getFromPathIndex_loop fuel index top idParts exact = Some r → p ∈ r →
  ∃ j ps, (j = 0 ∨ j < length idParts)
          ∧ index !! truncatedKey idParts j = Some ps ∧ p ∈ ps.
Proof.
  induction fuel as [|fuel IH]; intros index top idParts exact r p; [done|].
  simpl.
  assert (bool_decide (0 < length (pop idParts))
          && negb (bool_decide (join "." idParts = top)) = true →
          getFromPathIndex_loop fuel index top (pop idParts) false = Some r →
          p ∈ r →
          ∃ j ps, (j = 0 ∨ j < length idParts)
                  ∧ index !! truncatedKey idParts j = Some ps ∧ p ∈ ps)
    as Hnext.
  { intros [Hlen%bool_decide_eq_true _]%andb_true_iff Hr Hp.
    rewrite length_pop in Hlen.
    destruct (IH _ _ _ _ _ _ Hr Hp) as (j & ps & Hj & Hk & Hin).
    rewrite truncatedKey_pop in Hk. rewrite length_pop in Hj.
    exists (S j), ps. split; [right; lia|done]. }
  destruct (index !! join "." idParts) as [[|hint hints]|] eqn:Hk.
  2: { intros [= <-] Hp. exists 0, (hint :: hints).
       rewrite truncatedKey_0. split; [by left|]. split; [done|].
       destruct exact; [done|].
       apply list_elem_of_singleton in Hp as ->. left. }
  all: destruct (_ && _) eqn:Hcont; [by apply Hnext|].
  all: intros [= <-] Hp; by apply elem_of_nil in Hp.
Qed.

Lemma loop_agree fuel : ∀ index1 index2 top idParts exact,
  (∀ j, j = 0 ∨ j < length idParts →
        index1 !! truncatedKey idParts j = index2 !! truncatedKey idParts j) →
  getFromPathIndex_loop fuel index1 top idParts exact
  = getFromPathIndex_loop fuel index2 top idParts exact.
Proof.
  induction fuel as [|fuel IH]; intros index1 index2 top idParts exact Hagree;
    [done|].
  pose proof (Hagree 0 ltac:(by left)) as Hk0.
  rewrite truncatedKey_0 in Hk0. simpl. rewrite Hk0.
  destruct (bool_decide (0 < length (pop idParts))) eqn:Hlen; [|done].
  apply bool_decide_eq_true in Hlen. rewrite length_pop in Hlen.
  rewrite (IH index1 index2 top (pop idParts) false); [done|].
  intros j Hj. rewrite truncatedKey_pop. apply Hagree.
  rewrite length_pop in Hj. right. lia.
Qed.

(** X1: when the key of the id itself is absent or recorded with no
    path, the lookup returns one path at most. *)
Theorem getFromPathIndex_ancestor_singleton
    (elemID : ElemID) (index : PathIndex) :
  missing index (join "." (getFullNameParts elemID)) →
  length (getFromPathIndex elemID index) ≤ 1.
Proof.
  intros Hmiss.
  pose proof (getFromPathIndex_loop_eq elemID index) as Heq.
  destruct (decide (1 < length (getFullNameParts elemID)
                    ∧ join "." (getFullNameParts elemID)
                      ≠ getFullName (createTopLevelParentID elemID).1))
    as [[Hlen Hne]|Hstop].
  - rewrite loop_continue in Heq by done.
    by apply loop_inexact_length in Heq.
  - rewrite loop_stop in Heq; [injection Heq as <-; simpl; lia|done|].
    destruct (decide (join "." (getFullNameParts elemID)
                      = getFullName (createTopLevelParentID elemID).1));
      [by right|].
    left. apply not_and_l in Hstop as [?|?]; [lia|done].
Qed.

(** X2: every path the lookup returns is recorded in the store, at the
    key of the id or at the key of one of its truncations. *)
Theorem getFromPathIndex_recorded
    (elemID : ElemID) (index : PathIndex) (p : Path) :
  p ∈ getFromPathIndex elemID index →
  ∃ j ps, (j = 0 ∨ j < length (getFullNameParts elemID))
          ∧ index !! truncatedKey (getFullNameParts elemID) j = Some ps
          ∧ p ∈ ps.
Proof.
  apply (loop_recorded _ _ _ _ _ _ _ (getFromPathIndex_loop_eq elemID index)).
Qed.

(** X3: the lookup of an id reads the store at the key of the id and at
    the keys of its truncations only: two stores that agree there give
    the same result. *)
Theorem getFromPathIndex_agree
    (elemID : ElemID) (index1 index2 : PathIndex) :
  (∀ j, j = 0 ∨ j < length (getFullNameParts elemID) →
        index1 !! truncatedKey (getFullNameParts elemID) j
        = index2 !! truncatedKey (getFullNameParts elemID) j) →
  getFromPathIndex elemID index1 = getFromPathIndex elemID index2.
Proof.
  intros Hagree. unfold getFromPathIndex.
  by rewrite (loop_agree _ index1 index2 _ _ _ Hagree).
Qed.

End LookupMoreFacts.

(** ** What the hint computer emits *)
Section HintMoreFacts.
Context {ElemID : Type} `{!ElemIDOps ElemID}.

Lemma assoc_Some_fst {T} (k : string) (l : list (string * T)) (v : T) :
  assoc k l = Some v → k ∈ l.*1.
Proof.
  induction l as [|[k' w] l IH]; [done|]. simpl.
  destruct (decide (k' = k)) as [->|]; [left|]. intros Hv. right. auto.
Qed.

Lemma getValuePathHints_plain (fragments : list (Fragment Value))
    (elemID : ElemID) :
  length fragments ≠ 1 →
  forallb (λ f, isPlainObject (f_value f)) fragments = true →
  getValuePathHints fragments elemID
  = flat_map (λ key,
                getValuePathHints (propFragments key fragments)
                  (createNestedID elemID [key]))
      (uniq (flat_map (λ f, objectKeys (f_value f)) fragments)).
Proof.
  intros Hlen Hall. unfold getValuePathHints at 1.
  destruct fragments as [|f1 [|f2 fragments]]; [done..|].
  set (fs := f1 :: f2 :: fragments) in *.
  change (getValuePathHints_rec (S (maxNesting fs)) fs elemID) with
    (if forallb (λ f, isPlainObject (f_value f)) fs then
       flat_map (λ key,
                   getValuePathHints_rec (maxNesting fs)
                     (propFragments key fs) (createNestedID elemID [key]))
         (uniq (flat_map (λ f, objectKeys (f_value f)) fs))
     else []).
  rewrite Hall. apply flat_map_ext. intros key.
  assert (0 < maxNesting fs) as Hpos.
  { subst fs. simpl in Hall. apply andb_true_iff in Hall as [H1 _].
    apply nesting_plain in H1. simpl. lia. }
  pose proof (maxNesting_propFragments key fs).
  apply getValuePathHints_fuel_enough; lia.
Qed.

(** X4: every hint of [getValuePathHints] lists one path, the path of
    one of the fragments, and is keyed at the base id or at an id made
    from it by nesting keys. *)
Theorem getValuePathHints_hint_shape
    (fragments : list (Fragment Value)) (elemID : ElemID)
    (hint : PathHint) :
  hint ∈ getValuePathHints fragments elemID →
  (∃ f, f ∈ fragments ∧ value hint = [f_path f])
  ∧ (∃ d, valueIds elemID d ∧ key hint = getFullName d).
Proof.
  intros Hin. split.
  - by apply getValuePathHints_rec_paths in Hin.
  - by apply getValuePathHints_rec_keys in Hin.
Qed.

Lemma getProp_own (v : Value) (k : string) :
  k ∉ objectPrototypeNames → getProp v k = ownProp v k.
Proof.
  intros Hk.
  assert (inheritedMember k = VUndefined ∧ objectPrototypeMember k = VUndefined)
    as [Hinherited Hmember].
  { unfold inheritedMember, objectPrototypeMember.
    destruct (decide (k = "__proto__")) as [->|_].
    - destruct Hk. unfold objectPrototypeNames. set_solver.
    - by rewrite decide_False. }
  destruct v as [| | | | |props|]; try done. simpl.
  by destruct (assoc k props).
Qed.

Lemma propFragments_own (k : string) (fragments : list (Fragment Value)) :
  k ∉ objectPrototypeNames →
  propFragments k fragments = definingFragments k fragments.
Proof.
  intros Hk. unfold propFragments, definingFragments.
  induction fragments as [|f fragments IH]; [done|].
  rewrite !filter_cons, getProp_own by done.
  destruct (decide _); simpl; rewrite ?getProp_own by done;
    by rewrite IH.
Qed.

(** X5: when several fragments hold plain objects and a key that is not
    the name of a member of [Object.prototype] is defined in one of them
    only, the hints have the entry of the base id extended by that key
    with the path of that fragment. *)
Theorem getValuePathHints_single_owner
    (fragments : list (Fragment Value)) (elemID : ElemID)
    (k : string) (owner : Fragment Value) :
  length fragments ≠ 1 →
  forallb (λ f, isPlainObject (f_value f)) fragments = true →
  k ∉ objectPrototypeNames →
  definingFragments k fragments = [owner] →
  mkHint (getFullName (createNestedID elemID [k])) [f_path owner]
  ∈ getValuePathHints fragments elemID.
Proof.
  intros Hlen Hall Hk Hone. rewrite getValuePathHints_plain by done.
  apply elem_of_flat_map. exists k. split.
  - apply elem_of_uniq, elem_of_flat_map.
    assert (owner ∈ definingFragments k fragments) as Hin
      by (rewrite Hone; left).
    unfold definingFragments in Hin.
    apply elem_of_map in Hin as (f & _ & [Hdef Hf]%list_elem_of_filter).
    exists f. split; [done|].
    destruct (f_value f) as [| | | | |props|]; try done. simpl in *.
    destruct (assoc k props) eqn:Hprop; [|done].
    by apply assoc_Some_fst in Hprop.
  - rewrite propFragments_own, Hone by done. left.
Qed.

(** X6: fragments that declare no annotation types do not change the
    annotation-type hints, and every fragment that declares some has a
    hint that lists its path alone. *)
Theorem getAnnotationTypesPathHints_declaring
    (fragments : list (Fragment (Element ElemID))) :
  getAnnotationTypesPathHints
    (filter (λ f, annotationRefTypes (f_value f) ≠ []) fragments)
  = getAnnotationTypesPathHints fragments
  ∧ ∀ f, f ∈ fragments → annotationRefTypes (f_value f) ≠ [] →
      ∃ hint, hint ∈ getAnnotationTypesPathHints fragments
              ∧ value hint = [f_path f].
Proof.
  split.
  - unfold getAnnotationTypesPathHints.
    by rewrite list_filter_filter_l.
  - intros f Hf Hanno. unfold getAnnotationTypesPathHints.
    set (fw := filter _ fragments).
    assert (f ∈ fw) as Hfw by by apply list_elem_of_filter.
    assert (∃ hint,
              hint ∈ flat_map (λ f,
                map (λ annoKey,
                       mkHint
                         (getFullName
                            (createNestedID (elemID (f_value f))
                               ["annotation"; annoKey]))
                         [f_path f])
                  (annotationRefTypes (f_value f)).*1) fw
              ∧ value hint = [f_path f]) as Hmany.
    { destruct (annotationRefTypes (f_value f)) as [|[k t] rest] eqn:Hrefs;
        [done|].
      exists (mkHint
                (getFullName
                   (createNestedID (elemID (f_value f)) ["annotation"; k]))
                [f_path f]).
      split; [|done].
      apply elem_of_flat_map. exists f. split; [done|].
      rewrite Hrefs. left. }
    clearbody fw. destruct fw as [|f0 [|f1 fw]]; [done| |done].
    apply list_elem_of_singleton in Hfw as ->.
    exists (mkHint
              (getFullName
                 (createNestedID (elemID (f_value f0)) ["annotation"]))
              [f_path f0]).
    split; [left|done].
Qed.

Lemma fragmentsOfField_withFields fieldName
    (fragments : list (Fragment (Element ElemID))) :
  fragmentsOfField fieldName
    (filter (λ f, fields (f_value f) ≠ []) fragments)
  = fragmentsOfField fieldName fragments.
Proof.
  unfold fragmentsOfField.
  induction fragments as [|f fragments IH]; [done|].
  rewrite filter_cons.
  destruct (decide (fields (f_value f) ≠ [])) as [|Hnil]; csimpl.
  - by rewrite IH.
  - apply dec_stable in Hnil. by rewrite Hnil, IH.
Qed.

Lemma flatMapE_ext {A B} (f g : A → option (list B)) (l : list A) :
  (∀ x, x ∈ l → f x = g x) → flatMapE f l = flatMapE g l.
Proof.
  induction l as [|x l IH]; intros Heq; [done|]. simpl.
  rewrite (Heq x) by left. rewrite IH; [done|].
  intros x' Hx'. apply Heq. by right.
Qed.

(** X7: when no field has the name of a member of [Object.prototype],
    fragments whose object type has no field do not change the field
    hints. *)
Theorem getFieldsPathHints_without_fields
    (fragments : list (Fragment (Element ElemID))) :
  (∀ f name, f ∈ fragments → name ∈ (fields (f_value f)).*1 →
     name ∉ objectPrototypeNames) →
  getFieldsPathHints (filter (λ f, fields (f_value f) ≠ []) fragments)
  = getFieldsPathHints fragments.
Proof.
  intros Hown.
  unfold getFieldsPathHints. rewrite list_filter_filter_l by done.
  set (fw := filter _ fragments).
  assert (flatMapE (λ fieldName,
                      getFieldPathHints (fieldFragments fieldName fw))
            (uniq (flat_map (λ f, (fields (f_value f)).*1) fw))
          = flatMapE (λ fieldName,
                        getFieldPathHints
                          (fieldFragments fieldName fragments))
              (uniq (flat_map (λ f, (fields (f_value f)).*1) fw))) as Heq.
  { apply flatMapE_ext. intros fieldName Hname.
    apply elem_of_uniq, elem_of_flat_map in Hname as (f & Hf & Hname).
    apply list_elem_of_filter in Hf as [_ Hf].
    rewrite !fieldFragments_own by by apply (Hown f).
    subst fw. by rewrite fragmentsOfField_withFields. }
  by rewrite Heq.
Qed.

(** X8: the hints of a field end with the entry of the id of the field,
    so that entry is what a store is left with at that key: the paths of
    all the fragments that define the field, or the path of the only
    one. *)
Theorem getFieldPathHints_field_entry
    (fragments : list (Fragment (FieldSlot ElemID))) (f0 : Fragment _)
    (fld : Field ElemID) :
  head fragments = Some f0 → f_value f0 = OwnField fld →
  ∃ hints,
    getFieldPathHints fragments = Some hints
    ∧ hintFor (getFullName (field_elemID fld)) hints
      = Some (map f_path fragments).
Proof.
  intros Hhead Hown.
  assert (∃ hints,
            getFieldPathHints fragments = Some hints
            ∧ last hints
              = Some (mkHint (getFullName (field_elemID fld))
                        (map f_path fragments))) as (hints & Hh & Hlast).
  { destruct fragments as [|f1 [|f2 fragments]]; [done| |].
    - injection Hhead as ->. unfold getFieldPathHints. rewrite Hown.
      by eexists.
    - injection Hhead as ->. unfold getFieldPathHints. rewrite Hown.
      eexists. split; [done|]. by rewrite last_snoc. }
  exists hints. split; [done|]. by apply hintFor_last in Hlast.
Qed.

Lemma flat_map_ext_elem {A B} (f g : A → list B) (l : list A) :
  (∀ x, x ∈ l → f x = g x) → flat_map f l = flat_map g l.
Proof.
  induction l as [|x l IH]; intros Heq; [done|]. simpl.
  rewrite (Heq x) by left. rewrite IH; [done|].
  intros x' Hx'. apply Heq. by right.
Qed.

Lemma keysOf_cons (k : string) (w : Value) (props : Values) :
  keysOf (VObject ((k, w) :: props))
  = k :: keysOf w ++ keysOf (VObject props).
Proof. done. Qed.

Lemma objectKeys_keysOf (v : Value) (k : string) :
  k ∈ objectKeys v → k ∈ keysOf v.
Proof.
  destruct v as [| | | | |props|]; try by intros []%elem_of_nil.
  induction props as [|[k' w] props IH]; [done|].
  rewrite keysOf_cons.
  intros [->|Hin]%elem_of_cons; [left|right].
  apply elem_of_app. right. by apply IH.
Qed.

Lemma keysOf_ownProp (v : Value) (k x : string) :
  x ∈ keysOf (ownProp v k) → x ∈ keysOf v.
Proof.
  destruct v as [| | | | |props|]; try by intros []%elem_of_nil.
  induction props as [|[k' w] props IH]; [done|].
  rewrite keysOf_cons. simpl ownProp.
  destruct (decide (k' = k)); simpl; intros Hx; right; apply elem_of_app;
    [by left|right; by apply IH].
Qed.

Lemma getValuePathHints_rec_as_specified n :
  ∀ (fragments : list (Fragment Value)) (elemID : ElemID),
    (∀ f k, f ∈ fragments → k ∈ keysOf (f_value f) →
       k ∉ objectPrototypeNames) →
    getValuePathHints_rec n fragments elemID
    = hintsForValue_rec n fragments elemID.
Proof.
  induction n as [|n IH]; intros fragments elemID Hown.
  - by destruct fragments as [|f1 [|f2 fragments]].
  - destruct fragments as [|f1 [|f2 fragments]]; [done..|].
    set (fs := f1 :: f2 :: fragments) in *.
    change (getValuePathHints_rec (S n) fs elemID) with
      (if forallb (λ f, isPlainObject (f_value f)) fs then
         flat_map (λ key, getValuePathHints_rec n (propFragments key fs)
                            (createNestedID elemID [key]))
           (uniq (flat_map (λ f, objectKeys (f_value f)) fs))
       else []).
    change (hintsForValue_rec (S n) fs elemID) with
      (if forallb (λ f, isPlainObject (f_value f)) fs then
         flat_map (λ key, hintsForValue_rec n (definingFragments key fs)
                            (createNestedID elemID [key]))
           (uniq (flat_map (λ f, objectKeys (f_value f)) fs))
       else []).
    destruct (forallb _ fs); [|done].
    apply flat_map_ext_elem. intros key Hkey.
    apply elem_of_uniq, elem_of_flat_map in Hkey as (f & Hf & Hkey).
    rewrite propFragments_own
      by (apply (Hown f); [done|by apply objectKeys_keysOf]).
    apply IH. intros f' k Hf' Hk. unfold definingFragments in Hf'.
    apply elem_of_map in Hf' as (g & -> & [_ Hg]%list_elem_of_filter).
    apply (Hown g); [done|]. by apply keysOf_ownProp in Hk.
Qed.

(** X21: on values none of whose keys, at any depth, is the name of a
    member of [Object.prototype], [getValuePathHints] computes the hints
    as the specification words them, where a fragment contributes to a
    key when it defines the key itself. *)
Theorem getValuePathHints_as_specified
    (fragments : list (Fragment Value)) (elemID : ElemID) :
  (∀ f k, f ∈ fragments → k ∈ keysOf (f_value f) →
     k ∉ objectPrototypeNames) →
  getValuePathHints fragments elemID = hintsForValue fragments elemID.
Proof.
  intros Hown. unfold getValuePathHints, hintsForValue.
  by apply getValuePathHints_rec_as_specified.
Qed.

Lemma fieldFragments_inherited (name : string)
    (fragments : list (Fragment (Element ElemID))) :
  name ∈ objectPrototypeNames →
  fieldFragments name fragments
  = map (λ f,
           mkFragment
             match assoc name (fields (f_value f)) with
             | Some fld => OwnField fld
             | None => InheritedMember name
             end (f_path f)) fragments.
Proof.
  intros Hname. unfold fieldFragments, readField.
  induction fragments as [|f fragments IH]; [done|]. csimpl.
  rewrite IH.
  destruct (assoc name (fields (f_value f))); [done|].
  by rewrite decide_True.
Qed.

Lemma getFieldPathHints_None
    (fragments : list (Fragment (FieldSlot ElemID))) :
  getFieldPathHints fragments = None
  ↔ ∃ f0 member,
      head fragments = Some f0 ∧ f_value f0 = InheritedMember member.
Proof.
  destruct fragments as [|f1 [|f2 fragments]]; unfold getFieldPathHints.
  - split; [done|]. by intros (? & ? & ? & _).
  - destruct (f_value f1) as [fld|member] eqn:Hf1; simpl.
    + split; [done|]. intros (f0 & m & [= <-] & Hm). congruence.
    + split; [|done]. intros _. by exists f1, member.
  - destruct (f_value f1) as [fld|member] eqn:Hf1; simpl.
    + split; [done|]. intros (f0 & m & [= <-] & Hm). congruence.
    + split; [|done]. intros _. by exists f1, member.
Qed.

(** X22: the field hints throw exactly when, the fragments with fields
    being none or several, some field has the name of a member of
    [Object.prototype] and the first fragment has no field of that
    name: what is read there is the inherited member, which has no
    id. *)
Theorem getFieldsPathHints_throws
    (fragments : list (Fragment (Element ElemID))) :
  getFieldsPathHints fragments = None
  ↔ length (filter (λ f, fields (f_value f) ≠ []) fragments) ≠ 1
    ∧ ∃ name f0,
        name ∈ flat_map (λ f, (fields (f_value f)).*1) fragments
        ∧ name ∈ objectPrototypeNames
        ∧ head fragments = Some f0
        ∧ assoc name (fields (f_value f0)) = None.
Proof.
  assert (flatMapE (λ fieldName,
            getFieldPathHints (fieldFragments fieldName fragments))
            (uniq (flat_map (λ f, (fields (f_value f)).*1)
                     (filter (λ f, fields (f_value f) ≠ []) fragments)))
          = None
          ↔ ∃ name f0,
              name ∈ flat_map (λ f, (fields (f_value f)).*1) fragments
              ∧ name ∈ objectPrototypeNames
              ∧ head fragments = Some f0
              ∧ assoc name (fields (f_value f0)) = None) as Hflat.
  { rewrite fieldNames_withFields, flatMapE_None. split.
    - intros (name & Hname & Hnone).
      apply (proj1 (elem_of_uniq _ _)) in Hname.
      destruct (decide (name ∈ objectPrototypeNames)) as [Hproto|Hown].
      + rewrite fieldFragments_inherited in Hnone by done.
        apply getFieldPathHints_None in Hnone as (f0' & m & Hhead & Hm).
        destruct fragments as [|f0 fragments]; [done|].
        injection Hhead as <-. simpl in Hm.
        exists name, f0. split; [done|]. split; [done|]. split; [done|].
        by destruct (assoc name (fields (f_value f0))).
      + by rewrite fieldFragments_own, getFieldPathHints_own in Hnone.
    - intros (name & f0 & Hname & Hproto & Hhead & Hnone).
      exists name. split; [by apply elem_of_uniq|].
      rewrite fieldFragments_inherited by done.
      apply getFieldPathHints_None.
      destruct fragments as [|f fragments]; [done|].
      injection Hhead as ->. eexists _, name. split; [done|].
      simpl. by rewrite Hnone. }
  unfold getFieldsPathHints.
  destruct (filter (λ f, fields (f_value f) ≠ []) fragments)
    as [|f [|f' fw]] eqn:Hfw.
  - rewrite Hflat. simpl. split; [by intros ?|by intros [_ ?]].
  - split; [done|]. by intros [? _].
  - rewrite Hflat. simpl. split; [by intros ?|by intros [_ ?]].
Qed.

End HintMoreFacts.

(** ** Hints of many elements *)
Section ElementsHintMoreFacts.
Context {ElemID : Type} `{!ElemIDOps ElemID}.
Implicit Types (elements : list (Element ElemID)).

Lemma elem_of_groupBy_iff {T} (keyOf : T → string) (l : list T)
    (entry : string * list T) :
  entry ∈ groupBy keyOf l ↔
  ∃ x, x ∈ l ∧ entry = (keyOf x, filter (λ y, keyOf y = keyOf x) l).
Proof.
  unfold groupBy. rewrite elem_of_map. split.
  - intros (k & -> & (x & -> & Hx)%elem_of_uniq%elem_of_map).
    by exists x.
  - intros (x & Hx & ->). exists (keyOf x). split; [done|].
    apply elem_of_uniq, elem_of_map. by exists x.
Qed.

Lemma groupBy_keys {T} (keyOf : T → string) (l : list T) :
  (groupBy keyOf l).*1 = uniq (map keyOf l).
Proof.
  unfold groupBy. induction (uniq (map keyOf l)) as [|k ks IH]; [done|].
  simpl. by f_equal.
Qed.

Lemma filter_comm {T} (P Q : T → Prop) `{!∀ x, Decision (P x)}
    `{!∀ x, Decision (Q x)} (l : list T) :
  filter P (filter Q l) = filter Q (filter P l).
Proof.
  rewrite !list_filter_filter. apply list_filter_iff. tauto.
Qed.

Lemma hintFor_NoDup k v entries :
  NoDup (map key entries) → mkHint k v ∈ entries →
  hintFor k entries = Some v.
Proof.
  induction entries as [|e entries IH] using rev_ind;
    [by intros _ []%elem_of_nil|].
  rewrite map_app. intros (Hnd & Hfresh & _)%NoDup_app.
  rewrite hintFor_snoc, elem_of_app, list_elem_of_singleton.
  destruct (decide (key e = k)) as [Hk|Hk].
  - intros [Hin| <-]; [|done]. exfalso.
    apply (Hfresh k); [|rewrite <- Hk; left].
    apply elem_of_map. by exists (mkHint k v).
  - intros [Hin| <-]; [by apply IH|done].
Qed.

Lemma getTopLevelPathHints_keys_eq elements :
  map key (getTopLevelPathHints elements)
  = uniq (map (λ e, getFullName (elemID e))
            (filter (λ e, is_Some (path e)) elements)).
Proof.
  unfold getTopLevelPathHints. rewrite map_map. simpl.
  rewrite <- groupBy_keys. by rewrite map_fmap.
Qed.

Lemma getTopLevelPathHints_hintFor elements e :
  e ∈ elements → is_Some (path e) →
  hintFor (getFullName (elemID e)) (getTopLevelPathHints elements)
  = Some (map pathOf
            (filter (λ x, getFullName (elemID x) = getFullName (elemID e))
               (filter (λ x, is_Some (path x)) elements))).
Proof.
  intros He Hp. apply hintFor_NoDup.
  - rewrite getTopLevelPathHints_keys_eq. apply NoDup_uniq.
  - unfold getTopLevelPathHints. apply elem_of_map.
    eexists (_, _). split; [reflexivity|].
    apply elem_of_groupBy_iff. exists e. split; [|done].
    by apply list_elem_of_filter.
Qed.

Lemma toFragments_group elements k :
  toFragments
    (filter (λ x, getFullName (elemID x) = k)
       (filter (λ x, is_Some (path x)) elements))
  = toFragments (filter (λ x, getFullName (elemID x) = k) elements).
Proof.
  unfold toFragments. f_equal.
  rewrite (filter_comm _ (λ x, is_Some (path x))).
  by rewrite list_filter_filter_l.
Qed.

(** A group of the elements that has an element with a path is a group
    of the elements with a path, with the same fragments. *)
Lemma groups_with_path elements (entry : string * list (Element ElemID)) :
  entry ∈ groupBy (λ e, getFullName (elemID e)) elements →
  toFragments entry.2 = []
  ∨ ∃ entry',
      entry' ∈ groupBy (λ e, getFullName (elemID e))
                 (filter (λ e, is_Some (path e)) elements)
      ∧ toFragments entry'.2 = toFragments entry.2.
Proof.
  intros (x & Hx & ->)%elem_of_groupBy_iff. simpl.
  destruct (toFragments (filter _ elements)) as [|f rest] eqn:Hfrs;
    [by left|right].
  assert (f ∈ toFragments
                (filter (λ y, getFullName (elemID y)
                              = getFullName (elemID x)) elements)) as Hf
    by (rewrite Hfrs; left).
  unfold toFragments in Hf.
  apply elem_of_map in Hf
    as (e & _ & [Hp [Hk He]%list_elem_of_filter]%list_elem_of_filter).
  eexists (_, _). split.
  - apply elem_of_groupBy_iff. exists e. split; [|reflexivity].
    by apply list_elem_of_filter.
  - simpl. by rewrite toFragments_group, Hk, Hfrs.
Qed.

Lemma groups_of_path elements (entry' : string * list (Element ElemID)) :
  entry' ∈ groupBy (λ e, getFullName (elemID e))
             (filter (λ e, is_Some (path e)) elements) →
  ∃ entry,
    entry ∈ groupBy (λ e, getFullName (elemID e)) elements
    ∧ toFragments entry.2 = toFragments entry'.2.
Proof.
  intros (x & [Hp Hx]%list_elem_of_filter & ->)%elem_of_groupBy_iff.
  eexists (_, _). split.
  - apply elem_of_groupBy_iff. by exists x.
  - simpl. by rewrite toFragments_group.
Qed.

(** X9: elements without a path do not change whether
    [getElementsPathHints] returns, nor which hints it gives. *)
Theorem getElementsPathHints_ignores_pathless elements :
  (getElementsPathHints elements = None
   ↔ getElementsPathHints (filter (λ e, is_Some (path e)) elements) = None)
  ∧ ∀ hints hints',
      getElementsPathHints elements = Some hints →
      getElementsPathHints (filter (λ e, is_Some (path e)) elements)
      = Some hints' →
      ∀ hint, hint ∈ hints ↔ hint ∈ hints'.
Proof.
  unfold getElementsPathHints. split.
  - rewrite !flatMapE_None. split.
    + intros (entry & Hentry & Hnone).
      apply groups_with_path in Hentry as [Hnil|(entry' & Hentry' & Heq)].
      * by rewrite Hnil in Hnone.
      * exists entry'. split; [done|]. by rewrite Heq.
    + intros (entry' & Hentry' & Hnone).
      apply groups_of_path in Hentry' as (entry & Hentry & Heq).
      exists entry. split; [done|]. by rewrite Heq.
  - intros hints hints' [_ Hin]%flatMapE_Some [_ Hin']%flatMapE_Some hint.
    rewrite Hin, Hin'. split.
    + intros (entry & hs & Hentry & Hhs & Hhint).
      apply groups_with_path in Hentry as [Hnil|(entry' & Hentry' & Heq)].
      * rewrite Hnil in Hhs. injection Hhs as <-.
        by apply elem_of_nil in Hhint.
      * exists entry', hs. split; [done|]. by rewrite Heq.
    + intros (entry' & hs & Hentry' & Hhs & Hhint).
      apply groups_of_path in Hentry' as (entry & Hentry & Heq).
      exists entry, hs. split; [done|]. by rewrite Heq.
Qed.

(** X10: [getTopLevelPathHints] gives one entry for each full name of an
    element that carries a path, no two with the same key, and the entry
    of such an element lists the paths of the elements of that name that
    carry one, in input order. *)
Theorem getTopLevelPathHints_one_per_name elements :
  NoDup (map key (getTopLevelPathHints elements))
  ∧ ∀ e, e ∈ elements → is_Some (path e) →
      hintFor (getFullName (elemID e)) (getTopLevelPathHints elements)
      = Some (map pathOf
                (filter (λ x, getFullName (elemID x)
                              = getFullName (elemID e))
                   (filter (λ x, is_Some (path x)) elements))).
Proof.
  split.
  - rewrite getTopLevelPathHints_keys_eq. apply NoDup_uniq.
  - apply getTopLevelPathHints_hintFor.
Qed.

(** X11: when [getElementsPathHints] returns, every entry of
    [getTopLevelPathHints] is among its entries: the coarse index is part
    of the fine one. *)
Theorem getTopLevelPathHints_in_elements_hints elements hints hint :
  getElementsPathHints elements = Some hints →
  hint ∈ getTopLevelPathHints elements →
  hint ∈ hints.
Proof.
  unfold getTopLevelPathHints, getElementsPathHints.
  intros [Hall Hflat]%flatMapE_Some
    (entry & -> & (x & [Hp Hx]%list_elem_of_filter & ->)
                    %elem_of_groupBy_iff)%elem_of_map.
  simpl. apply Hflat.
  set (group := filter (λ y, getFullName (elemID y)
                             = getFullName (elemID x)) elements).
  assert ((getFullName (elemID x), group)
          ∈ groupBy (λ e, getFullName (elemID e)) elements) as Hgroup
    by (apply elem_of_groupBy_iff; by exists x).
  destruct (Hall _ Hgroup) as [hs Hhs]. simpl in Hhs.
  exists (getFullName (elemID x), group), hs.
  split; [done|]. split; [done|].
  assert (x ∈ filter (λ e, is_Some (path e)) group) as Hin.
  { apply list_elem_of_filter. split; [done|].
    by apply list_elem_of_filter. }
  destruct (toFragments group) as [|f0 rest] eqn:Hfrs.
  { unfold toFragments in Hfrs.
    destruct (filter (λ e, is_Some (path e)) group); [|done].
    by apply elem_of_nil in Hin. }
  assert (f0 ∈ toFragments group) as Hf0 by (rewrite Hfrs; left).
  apply elem_of_toFragments, list_elem_of_filter in Hf0 as [Hname _].
  pose proof (getElementPathHints_last (f0 :: rest) f0 hs eq_refl Hhs)
    as Hlast.
  apply last_Some_elem_of in Hlast. simpl in Hname.
  rewrite Hname, <- Hfrs, toFragments_paths, omap_path_filter in Hlast.
  subst group.
  by rewrite (filter_comm (λ e, is_Some (path e))) in Hlast.
Qed.

End ElementsHintMoreFacts.

(** ** Updating, then looking up *)
Section UpdateMoreFacts.
Context {ElemID : Type} `{!ElemIDOps ElemID}.
Implicit Types (index : PathIndex) (known : gset string).
Implicit Types (changed : list (Element ElemID)).

Lemma lookup_filter_known index known k :
  filter (λ kv : string * list Path, topLevelNameOfKey kv.1 ∈ known) index
    !! k
  = if decide (topLevelNameOfKey k ∈ known) then index !! k else None.
Proof.
  rewrite map_lookup_filter.
  destruct (index !! k) as [paths|]; simpl; [|by destruct (decide _)].
  destruct (decide (topLevelNameOfKey k ∈ known)).
  - by rewrite option_guard_True.
  - by rewrite option_guard_False.
Qed.

Lemma updateTopLevelPathIndex_at_name index changed ids
    (e : Element ElemID) :
  e ∈ changed → is_Some (path e) →
  ∃ p ps,
    map pathOf
      (filter (λ x, getFullName (elemID x) = getFullName (elemID e))
         (filter (λ x, is_Some (path x)) changed)) = p :: ps
    ∧ (updateTopLevelPathIndex index changed ids).2
        !! getFullName (elemID e) = Some (p :: ps).
Proof.
  intros He Hp. unfold updateTopLevelPathIndex.
  rewrite lookup_updateIndex. simpl.
  rewrite getTopLevelPathHints_hintFor by done.
  assert (e ∈ filter (λ x, getFullName (elemID x)
                           = getFullName (elemID e))
                (filter (λ x, is_Some (path x)) changed)) as Hin.
  { apply list_elem_of_filter. split; [done|].
    by apply list_elem_of_filter. }
  destruct (filter _ (filter _ changed)) as [|x l];
    [by apply elem_of_nil in Hin|].
  by eexists _, _.
Qed.

(** X12: after [updateTopLevelPathIndex], the lookup of the id of a
    changed element that carries a path gives the paths of the changed
    elements of that name that carry one, in input order, whatever the
    store held and whichever ids are known. *)
Theorem updateTopLevelPathIndex_lookup index changed ids
    (e : Element ElemID) :
  getFullName (elemID e) = join "." (getFullNameParts (elemID e)) →
  e ∈ changed → is_Some (path e) →
  getFromPathIndex (elemID e)
    (updateTopLevelPathIndex index changed ids).2
  = map pathOf
      (filter (λ x, getFullName (elemID x) = getFullName (elemID e))
         (filter (λ x, is_Some (path x)) changed)).
Proof.
  intros Hname He Hp.
  destruct (updateTopLevelPathIndex_at_name index changed ids e He Hp)
    as (p & ps & -> & Hk).
  rewrite Hname in Hk. by apply getFromPathIndex_exact.
Qed.

(** X13: an update with no changed element and with known ids only
    prunes: it keeps the entries whose key has its top-level parent among
    the known ids, with their values, and nothing else; when all keys
    are such, the store is left as it was. *)
Theorem update_nothing_changed index known :
  updatePathIndex index [] (Some known)
  = (Resolved, filter (λ kv, topLevelNameOfKey kv.1 ∈ known) index)
  ∧ updateTopLevelPathIndex index [] (Some known)
    = (Resolved, filter (λ kv, topLevelNameOfKey kv.1 ∈ known) index)
  ∧ ((∀ k, is_Some (index !! k) → topLevelNameOfKey k ∈ known) →
     updatePathIndex index [] (Some known) = (Resolved, index)
     ∧ updateTopLevelPathIndex index [] (Some known) = (Resolved, index)).
Proof.
  assert (∀ hintFn : list (Element ElemID) → option (list PathHint),
            hintFn [] = Some [] →
            updateIndex index [] (Some known) hintFn
            = (Resolved,
               filter (λ kv, topLevelNameOfKey kv.1 ∈ known) index))
    as Hprune.
  { intros hintFn Hnil.
    rewrite (surjective_pairing (updateIndex _ _ _ _)).
    rewrite updateIndex_outcome, Hnil. f_equal.
    apply map_eq. intros k.
    by rewrite lookup_updateIndex, Hnil, lookup_prune,
         lookup_filter_known. }
  assert ((∀ k, is_Some (index !! k) → topLevelNameOfKey k ∈ known) →
          filter (λ kv, topLevelNameOfKey kv.1 ∈ known) index = index)
    as Hsame.
  { intros Hall. apply map_eq. intros k. rewrite lookup_filter_known.
    destruct (decide (topLevelNameOfKey k ∈ known)) as [|Hnot]; [done|].
    destruct (index !! k) eqn:Hk; [|done].
    destruct Hnot. apply Hall. rewrite Hk. by eexists. }
  unfold updatePathIndex, updateTopLevelPathIndex.
  rewrite !Hprune by done.
  split; [done|]. split; [done|]. intros Hall. by rewrite Hsame.
Qed.

End UpdateMoreFacts.

(** ** Loading and serializing *)
Section SerializeFacts.
Context {ElemID : Type} `{!ElemIDOps ElemID}.
Context {Stream : Type}.
Variable getSerializedStream : list (string * list Path) → Stream.
Variable adapter : ElemID → string.

Lemma loadPathIndex_map (parsedEntries : list (string * list Path)) :
  loadPathIndex parsedEntries = map (λ e, mkHint e.1 e.2) parsedEntries.
Proof.
  unfold loadPathIndex.
  induction parsedEntries as [|e l IH]; [done|]. simpl. by rewrite IH.
Qed.

Lemma loadPathIndex_pairs (parsedEntries : list (string * list Path)) :
  map (λ e, (key e, value e)) (loadPathIndex parsedEntries) = parsedEntries.
Proof.
  rewrite loadPathIndex_map, map_map. simpl.
  induction parsedEntries as [|[k v] l IH]; [done|]. simpl. by rewrite IH.
Qed.

(** X14: what is loaded from parsed entries is serialized back to the
    stream of those entries, and writing what is loaded from the listing
    of a store to an empty store gives that store again. *)
Theorem loadPathIndex_round_trip :
  (∀ parsedEntries,
     serializedPathIndex getSerializedStream (loadPathIndex parsedEntries)
     = getSerializedStream parsedEntries)
  ∧ (∀ index : PathIndex,
       setAll (loadPathIndex (map_to_list index)) ∅ = index).
Proof.
  split.
  - intros parsedEntries. unfold serializedPathIndex.
    by rewrite loadPathIndex_pairs.
  - intros index. apply map_eq. intros k.
    rewrite lookup_setAll, lookup_empty.
    assert (NoDup (map key (loadPathIndex (map_to_list index)))) as Hnd.
    { rewrite loadPathIndex_map, map_map. simpl.
      apply (NoDup_fst_map_to_list index). }
    destruct (index !! k) as [paths|] eqn:Hk.
    + rewrite (hintFor_NoDup k paths); [done..|].
      rewrite loadPathIndex_map. apply elem_of_map.
      exists (k, paths). split; [done|]. by apply elem_of_map_to_list.
    + destruct (hintFor k _) as [paths|] eqn:Hfor; [|done].
      apply hintFor_Some in Hfor. rewrite loadPathIndex_map in Hfor.
      apply elem_of_map in Hfor as ([k' v] & [= -> ->] & Hin).
      apply elem_of_map_to_list in Hin. congruence.
Qed.

(** X15: [serializePathIndexByAccount] gives one stream for each adapter
    that the key of an entry parses to, no adapter twice, and the stream
    of an adapter is the stream of the entries of that adapter, in their
    order. *)
Theorem serializePathIndexByAccount_groups (entries : list PathHint) :
  let account entry := adapter (fromFullName (key entry)) in
  let streams :=
    serializePathIndexByAccount getSerializedStream adapter entries in
  NoDup streams.*1
  ∧ (∀ entry, entry ∈ entries → account entry ∈ streams.*1)
  ∧ (∀ name stream, (name, stream) ∈ streams →
       (∃ entry, entry ∈ entries ∧ account entry = name)
       ∧ stream
         = serializedPathIndex getSerializedStream
             (filter (λ entry, account entry = name) entries)).
Proof.
  intros account streams.
  assert (streams.*1 = uniq (map account entries)) as Hkeys.
  { subst streams. unfold serializePathIndexByAccount.
    rewrite <- (groupBy_keys account entries).
    induction (groupBy _ entries) as [|g gs IH]; [done|].
    simpl. by f_equal. }
  split; [rewrite Hkeys; apply NoDup_uniq|]. split.
  - intros entry Hin. rewrite Hkeys. apply elem_of_uniq, elem_of_map.
    by exists entry.
  - intros name stream Hin. subst streams.
    unfold serializePathIndexByAccount in Hin.
    apply elem_of_map in Hin
      as (group & [= -> ->] & (x & Hx & ->)%elem_of_groupBy_iff).
    split; [by exists x|done].
Qed.

End SerializeFacts.

(** ** Splitting after an update *)
Section SplitMoreFacts.
Context {ElemID : Type} `{!ElemIDOps ElemID}.
Variable filterByID :
  ElemID → Element ElemID → (ElemID → bool) → option (Element ElemID).

Lemma length_omap_le {T U} (g : T → option U) (l : list T) :
  length (omap g l) ≤ length l.
Proof.
  induction l as [|x l IH]; [done|]. simpl.
  change (list_omap T U g l) with (omap g l).
  destruct (g x); simpl; lia.
Qed.

(** X16: the elements [splitElementByPath] returns are tagged with
    resolved paths of the id of the element: one returned element without
    a path when nothing is resolved, and otherwise at most one element for
    each resolved path, each tagged with one of them. *)
Theorem splitElementByPath_tags
    (element : Element ElemID) (index : PathIndex) :
  let pathHints := getFromPathIndex (elemID element) index in
  let result := splitElementByPath filterByID element index in
  length result ≤ length pathHints `max` 1
  ∧ (pathHints = [] → result = [withPath None element])
  ∧ (pathHints ≠ [] →
     ∀ r, r ∈ result → ∃ p, p ∈ pathHints ∧ path r = Some p).
Proof.
  intros pathHints result. subst result.
  unfold splitElementByPath. fold pathHints.
  destruct (bool_decide (length pathHints ≤ 1)) eqn:Hlen.
  - split; [simpl; lia|]. split; [by intros ->|].
    intros Hne r ->%list_elem_of_singleton.
    destruct pathHints as [|p l]; [done|]. exists p. split; [left|done].
  - apply bool_decide_eq_false in Hlen. rewrite omap_id_map.
    split; [|split].
    + etrans; [apply length_omap_le|]. lia.
    + intros Hnil. rewrite Hnil in Hlen. simpl in Hlen. lia.
    + intros _ r (hint & Hin & Hr)%list_elem_of_omap.
      destruct (filterByID _ _ _) as [copy|]; [|done].
      simpl in Hr. injection Hr as <-. by exists hint.
Qed.

(** X17: when one changed element only carries a path under its name,
    [updateTopLevelPathIndex] and then [splitElementByPath] on an element
    of that id give that element once, tagged with that path, without
    filtering it. *)
Theorem split_after_update_single index changed ids
    (e element : Element ElemID) (p : Path) :
  getFullName (elemID e) = join "." (getFullNameParts (elemID e)) →
  e ∈ changed → path e = Some p →
  filter (λ x, getFullName (elemID x) = getFullName (elemID e))
    (filter (λ x, is_Some (path x)) changed) = [e] →
  elemID element = elemID e →
  splitElementByPath filterByID element
    (updateTopLevelPathIndex index changed ids).2
  = [withPath (Some p) element].
Proof.
  intros Hname He Hp Hone Hid. unfold splitElementByPath.
  destruct (updateTopLevelPathIndex_at_name index changed ids e He
              ltac:(by eexists)) as (q & qs & Hpaths & Hk).
  rewrite Hone in Hpaths. simpl in Hpaths. unfold pathOf in Hpaths.
  rewrite Hp in Hpaths. injection Hpaths as <- <-.
  rewrite Hname in Hk. rewrite Hid.
  by rewrite (getFromPathIndex_exact _ _ _ Hk).
Qed.

End SplitMoreFacts.

(** ** Lookups below an indexed element *)
Section LeafFacts.
Context {ElemID : Type} `{!ElemIDOps ElemID}.
Implicit Types (index : PathIndex) (idParts : list string) (top : string).

Lemma loop_agree_upto fuel : ∀ index1 index2 top idParts exact t,
  truncatedKey idParts t = top →
  (∀ j, j ≤ t → j = 0 ∨ j < length idParts →
        index1 !! truncatedKey idParts j = index2 !! truncatedKey idParts j) →
  getFromPathIndex_loop fuel index1 top idParts exact
  = getFromPathIndex_loop fuel index2 top idParts exact.
Proof.
  induction fuel as [|fuel IH];
    intros index1 index2 top idParts exact t Htop Hagree; [done|].
  pose proof (Hagree 0 ltac:(lia) ltac:(by left)) as Hk0.
  rewrite truncatedKey_0 in Hk0. simpl. rewrite Hk0.
  destruct (bool_decide (0 < length (pop idParts))) eqn:Hlen; [|done].
  destruct (bool_decide (join "." idParts = top)) eqn:Hkey; [done|].
  apply bool_decide_eq_true in Hlen. rewrite length_pop in Hlen.
  apply bool_decide_eq_false in Hkey.
  destruct t as [|t]; [by rewrite truncatedKey_0 in Htop|].
  rewrite (IH index1 index2 top (pop idParts) false t); [done|..].
  - by rewrite truncatedKey_pop.
  - intros j Hj Hj'. rewrite truncatedKey_pop. apply Hagree; [lia|].
    rewrite length_pop in Hj'. right. lia.
Qed.

(** X18: the lookup does not read the store above the top-level parent:
    when the key after [t] truncations is the top-level key, two stores
    that agree on the keys of the first [t] truncations give the same
    result. *)
Theorem getFromPathIndex_stops_at_top_level
    (elemID : ElemID) (index1 index2 : PathIndex) (t : nat) :
  truncatedKey (getFullNameParts elemID) t
  = getFullName (createTopLevelParentID elemID).1 →
  (∀ j, j ≤ t → j = 0 ∨ j < length (getFullNameParts elemID) →
        index1 !! truncatedKey (getFullNameParts elemID) j
        = index2 !! truncatedKey (getFullNameParts elemID) j) →
  getFromPathIndex elemID index1 = getFromPathIndex elemID index2.
Proof.
  intros Htop Hagree. unfold getFromPathIndex.
  by rewrite (loop_agree_upto _ index1 index2 _ _ _ t Htop Hagree).
Qed.

(** X19: once the hints of the fragments of an element are written to a
    store, the lookup of an id below the element whose own key and whose
    keys down to the element are absent or empty gives one path, the path
    of the first fragment.  The hints are those [getElementPathHints]
    returns. *)
Theorem getFromPathIndex_unknown_leaf
    (fragments : list (Fragment (Element ElemID))) (f0 : Fragment _)
    (hints : list PathHint) (id d : ElemID) (index : PathIndex)
    (rest : list string) (k : nat) :
  getElementPathHints fragments = Some hints →
  head fragments = Some f0 →
  (∀ f, f ∈ fragments → elemID (f_value f) = id) →
  getFullName id = join "." (getFullNameParts id) →
  getFullNameParts id ≠ [] →
  getFullNameParts d = getFullNameParts id ++ rest → rest ≠ [] →
  getFullName (createTopLevelParentID d).1
  = join "." (take k (getFullNameParts id)) →
  (∀ i, i < length rest →
        missing (setAll hints index)
          (truncatedKey (getFullNameParts d) i)) →
  getFromPathIndex d (setAll hints index) = [f_path f0].
Proof.
  intros Hhints Hhead Hshare Hname Hparts Hd Hrest Htop Hmiss.
  set (store := setAll hints index) in *.
  assert (f0 ∈ fragments) as Hf0.
  { destruct fragments; [done|]. injection Hhead as ->. left. }
  pose proof (getElementPathHints_last _ _ _ Hhead Hhints) as Hlast.
  rewrite (Hshare f0 Hf0) in Hlast.
  apply hintFor_last in Hlast. simpl in Hlast.
  assert (store !! truncatedKey (getFullNameParts d) (length rest)
          = Some (f_path f0 :: map f_path (tail fragments))) as Hhit.
  { unfold truncatedKey. rewrite Hd, length_app.
    replace (length (getFullNameParts id) + length rest - length rest)
      with (length (getFullNameParts id)) by lia.
    rewrite take_app_length, <- Hname. subst store.
    rewrite lookup_setAll, Hlast.
    destruct fragments; [done|]. by injection Hhead as ->. }
  pose proof (getFromPathIndex_loop_eq d store) as Heq.
  rewrite (loop_found (length rest) _ _ _ _ _ (f_path f0)
             (map f_path (tail fragments))) in Heq.
  - rewrite bool_decide_eq_false_2 in Heq by (destruct rest; done).
    simpl in Heq. by injection Heq as <-.
  - lia.
  - right. rewrite Hd, length_app.
    destruct (getFullNameParts id); [done|]. simpl. lia.
  - intros i Hi. split; [by apply Hmiss|].
    unfold truncatedKey. rewrite Htop, Hd.
    apply join_extension_ne; [done|..]; rewrite length_app; lia.
  - done.
Qed.

End LeafFacts.

(** ** The further properties on the samples *)
Section MoreSampleFacts.
Import SegmentID Samples MoreSamples.

(** X1 on the store with an empty entry. *)
Lemma getFromPathIndex_ancestor_singleton_witness :
  missing emptyEntryIndex "salto.obj.attr.a"
  ∧ length (getFromPathIndex (objID ++ ["attr"; "a"]) emptyEntryIndex) ≤ 1.
Proof.
  split; [right; reflexivity|].
  apply (getFromPathIndex_ancestor_singleton (objID ++ ["attr"; "a"])
           emptyEntryIndex).
  right. reflexivity.
Defined.

(** X2 on the store with an empty entry. *)
Lemma getFromPathIndex_recorded_witness :
  ["f1"] ∈ getFromPathIndex (objID ++ ["attr"; "b"]) emptyEntryIndex
  ∧ ∃ j ps, (j = 0 ∨ j < 4)
            ∧ emptyEntryIndex
                !! truncatedKey (objID ++ ["attr"; "b"]) j = Some ps
            ∧ ["f1"] ∈ ps.
Proof.
  assert (["f1"] ∈ getFromPathIndex (objID ++ ["attr"; "b"])
                     emptyEntryIndex) as Hin by (vm_compute; left).
  split; [exact Hin|].
  exact (getFromPathIndex_recorded (objID ++ ["attr"; "b"])
           emptyEntryIndex ["f1"] Hin).
Defined.

(** X3: a key of another element does not change the lookup. *)
Lemma getFromPathIndex_agree_witness :
  getFromPathIndex (instID ++ ["a"; "b"]) instIndexAndMore
  = getFromPathIndex (instID ++ ["a"; "b"]) instIndex.
Proof.
  apply (getFromPathIndex_agree (instID ++ ["a"; "b"])
           instIndexAndMore instIndex).
  intros j Hj. simpl in Hj.
  destruct j as [|[|[|[|[|j]]]]]; reflexivity.
Defined.

(** X4 on plain objects that share a key. *)
Lemma getValuePathHints_hint_shape_witness :
  mkHint "salto.obj.a.n" [["f1"]] ∈ getValuePathHints valueFragments objID
  ∧ (∃ f, f ∈ valueFragments ∧ [["f1"]] = [f_path f])
  ∧ (∃ d, valueIds objID d ∧ "salto.obj.a.n" = getFullName d).
Proof.
  assert (mkHint "salto.obj.a.n" [["f1"]]
          ∈ getValuePathHints valueFragments objID) as Hin
    by (vm_compute; left).
  split; [exact Hin|].
  exact (getValuePathHints_hint_shape valueFragments objID _ Hin).
Defined.

(** X5: key [b] is defined in the first fragment only. *)
Lemma getValuePathHints_single_owner_witness :
  mkHint "salto.obj.b" [["f1"]] ∈ getValuePathHints valueFragments objID.
Proof.
  exact (getValuePathHints_single_owner valueFragments objID "b"
           (mkFragment (VPrimitive "2") ["f1"])
           ltac:(discriminate) eq_refl
           (sample_names_own ["b"] "b" eq_refl ltac:(left)) eq_refl).
Defined.

(** X21 on plain objects that share a key. *)
Lemma getValuePathHints_as_specified_witness :
  getValuePathHints valueFragments objID
  = [mkHint "salto.obj.a.n" [["f1"]]; mkHint "salto.obj.a.m" [["f2"]];
     mkHint "salto.obj.b" [["f1"]]].
Proof.
  etrans.
  - apply (getValuePathHints_as_specified valueFragments objID).
    intros f k Hf.
    repeat (apply elem_of_cons in Hf as [->|Hf]);
      [| |by apply elem_of_nil in Hf].
    all: by apply sample_names_own.
  - reflexivity.
Defined.

(** X22 on the two fragments of the object type of which the second
    has a field named [constructor]. *)
Lemma getFieldsPathHints_throws_witness :
  getFieldsPathHints [fragmentOf objX; fragmentOf objConstructor] = None.
Proof.
  apply (proj2 (getFieldsPathHints_throws
                  [fragmentOf objX; fragmentOf objConstructor])).
  split; [vm_compute; discriminate|].
  exists "constructor", (fragmentOf objX).
  split; [right; left|]. split; [|by split].
  unfold objectPrototypeNames. left.
Defined.

(** X6: of the fragments of the object type the third declares an
    annotation type. *)
Lemma getAnnotationTypesPathHints_declaring_witness :
  ∃ hint,
    hint ∈ getAnnotationTypesPathHints
             [fragmentOf obj1; fragmentOf obj2; fragmentOf obj3]
    ∧ value hint = [["f3"]].
Proof.
  apply (proj2 (getAnnotationTypesPathHints_declaring
                  [fragmentOf obj1; fragmentOf obj2; fragmentOf obj3])
           (fragmentOf obj3)).
  - right. right. left.
  - discriminate.
Defined.

(** X7 on the fragments of the object type, the second without
    fields. *)
Lemma getFieldsPathHints_without_fields_witness :
  getFieldsPathHints [fragmentOf obj1; fragmentOf obj3]
  = getFieldsPathHints [fragmentOf obj1; fragmentOf obj2; fragmentOf obj3].
Proof.
  apply (getFieldsPathHints_without_fields
           [fragmentOf obj1; fragmentOf obj2; fragmentOf obj3]).
  intros f name Hf.
  repeat (apply elem_of_cons in Hf as [->|Hf]);
    [| | |by apply elem_of_nil in Hf].
  all: by apply sample_names_own.
Defined.

(** X8 on field [a], defined in the first and the third fragment. *)
Lemma getFieldPathHints_field_entry_witness :
  ∃ hints,
    getFieldPathHints
      (fieldFragments "a"
         [fragmentOf obj1; fragmentOf obj2; fragmentOf obj3])
    = Some hints
    ∧ hintFor "salto.obj.field.a" hints = Some [["f1"]; ["f3"]].
Proof.
  exact (getFieldPathHints_field_entry
           (fieldFragments "a"
              [fragmentOf obj1; fragmentOf obj2; fragmentOf obj3])
           (mkFragment (OwnField (fieldA [("label", VPrimitive "A")]))
              ["f1"])
           (fieldA [("label", VPrimitive "A")])
           eq_refl eq_refl).
Defined.

(** X9 on elements where the one without a path comes first: the groups
    come in another order, with the same hints. *)
Lemma getElementsPathHints_ignores_pathless_witness :
  ∃ hints hints',
    getElementsPathHints [inst3; obj1; inst1; inst2] = Some hints
    ∧ getElementsPathHints [obj1; inst1; inst2] = Some hints'
    ∧ ∀ hint, hint ∈ hints ↔ hint ∈ hints'.
Proof.
  eexists _, _. split; [vm_compute; reflexivity|].
  split; [vm_compute; reflexivity|].
  apply (proj2 (getElementsPathHints_ignores_pathless
                  [inst3; obj1; inst1; inst2])); reflexivity.
Defined.

(** X10 on elements of two names, one without a path. *)
Lemma getTopLevelPathHints_one_per_name_witness :
  hintFor "salto.obj.inst"
    (getTopLevelPathHints [obj1; inst3; inst1; obj2; inst2])
  = Some [["f1"]; ["f2"]].
Proof.
  exact (proj2 (getTopLevelPathHints_one_per_name
                  [obj1; inst3; inst1; obj2; inst2]) inst1
           ltac:(right; right; left) ltac:(by eexists)).
Defined.

(** X11 on the same elements. *)
Lemma getTopLevelPathHints_in_elements_hints_witness :
  ∃ hints,
    getElementsPathHints [obj1; inst3; inst1; obj2; inst2] = Some hints
    ∧ mkHint "salto.obj.inst" [["f1"]; ["f2"]] ∈ hints.
Proof.
  eexists. split; [vm_compute; reflexivity|].
  apply (getTopLevelPathHints_in_elements_hints
           [obj1; inst3; inst1; obj2; inst2]); [reflexivity|].
  vm_compute. right. left.
Defined.

(** X12 on a stale store. *)
Lemma updateTopLevelPathIndex_lookup_witness :
  getFromPathIndex instID
    (updateTopLevelPathIndex staleIndex [obj1; inst1; inst3; inst2]
       (Some knownIds)).2
  = [["f1"]; ["f2"]].
Proof.
  exact (updateTopLevelPathIndex_lookup staleIndex
           [obj1; inst1; inst3; inst2] (Some knownIds) inst1
           eq_refl ltac:(right; left) ltac:(by eexists)).
Defined.

Lemma instIndex_known (k : string) :
  is_Some (instIndex !! k) → topLevelNameOfKey k ∈ knownIds.
Proof.
  unfold instIndex, knownIds. intros [paths Hk].
  destruct (decide (k = "salto.obj.inst.a")) as [->|Hne1];
    [vm_compute topLevelNameOfKey; set_solver|].
  rewrite lookup_insert_ne in Hk by done.
  destruct (decide (k = "salto.obj.inst")) as [->|Hne2];
    [vm_compute topLevelNameOfKey; set_solver|].
  by rewrite lookup_insert_ne in Hk.
Qed.

(** X13: all keys of the store belong to known elements. *)
Lemma update_nothing_changed_witness :
  updatePathIndex instIndex [] (Some knownIds) = (Resolved, instIndex)
  ∧ updateTopLevelPathIndex instIndex [] (Some knownIds)
    = (Resolved, instIndex).
Proof.
  exact (proj2 (proj2 (update_nothing_changed instIndex knownIds))
           instIndex_known).
Defined.

(** X15 on entries of two adapters, with the list of pairs as the
    stream. *)
Lemma serializePathIndexByAccount_groups_witness :
  ("salto",
   [("salto.obj.inst", [["f1"]; ["f2"]]); ("salto.obj.inst.a", [["f1"]])])
  ∈ serializePathIndexByAccount id adapterOf sampleEntries
  ∧ (∃ entry, entry ∈ sampleEntries
              ∧ adapterOf (fromFullName (key entry)) = "salto").
Proof.
  assert (("salto",
           [("salto.obj.inst", [["f1"]; ["f2"]]);
            ("salto.obj.inst.a", [["f1"]])])
          ∈ serializePathIndexByAccount id adapterOf sampleEntries) as Hin
    by (vm_compute; left).
  split; [exact Hin|].
  exact (proj1 (proj2 (proj2 (serializePathIndexByAccount_groups id
                                adapterOf sampleEntries)) _ _ Hin)).
Defined.

(** X16 on the instance, whose id resolves to two paths. *)
Lemma splitElementByPath_tags_witness :
  withPath (Some ["f2"]) inst1
  ∈ splitElementByPath keepIfOwned inst1 instIndex
  ∧ ∃ p, p ∈ getFromPathIndex instID instIndex
         ∧ path (withPath (Some ["f2"]) inst1) = Some p.
Proof.
  assert (withPath (Some ["f2"]) inst1
          ∈ splitElementByPath keepIfOwned inst1 instIndex) as Hin
    by (vm_compute; right; left).
  split; [exact Hin|].
  apply (proj2 (proj2 (splitElementByPath_tags keepIfOwned inst1
                         instIndex))); [|exact Hin].
  vm_compute. discriminate.
Defined.

(** X17: the only element of the name [salto.obj.inst] that carries a
    path is [inst1]. *)
Lemma split_after_update_single_witness :
  splitElementByPath keepIfOwned inst2
    (updateTopLevelPathIndex staleIndex [obj1; inst1; inst3] None).2
  = [withPath (Some ["f1"]) inst2].
Proof.
  exact (split_after_update_single keepIfOwned staleIndex
           [obj1; inst1; inst3] None inst1 inst2 ["f1"]
           eq_refl ltac:(right; left) eq_refl eq_refl eq_refl).
Defined.

(** X18: the key of the adapter alone is above the top-level parent. *)
Lemma getFromPathIndex_stops_at_top_level_witness :
  getFromPathIndex (instID ++ ["c"]) (<["salto" := [["f8"]]]> instIndex)
  = getFromPathIndex (instID ++ ["c"]) instIndex.
Proof.
  apply (getFromPathIndex_stops_at_top_level (instID ++ ["c"])
           (<["salto" := [["f8"]]]> instIndex) instIndex 1);
    [reflexivity|].
  intros j Hj _. destruct j as [|[|j]]; [reflexivity..|lia].
Defined.

(** X19: [salto.obj.inst.c.d] is not in the store, nor is
    [salto.obj.inst.c]. *)
Lemma getFromPathIndex_unknown_leaf_witness :
  ∃ hints,
    getElementPathHints [fragmentOf inst1; fragmentOf inst2] = Some hints
    ∧ getFromPathIndex (instID ++ ["c"; "d"]) (setAll hints staleIndex)
      = [["f1"]].
Proof.
  eexists. split; [vm_compute; reflexivity|].
  apply (getFromPathIndex_unknown_leaf
           [fragmentOf inst1; fragmentOf inst2] (fragmentOf inst1) _
           instID (instID ++ ["c"; "d"]) staleIndex ["c"; "d"] 3);
    try reflexivity; try discriminate.
  - intros f Hf.
    repeat (apply elem_of_cons in Hf as [->|Hf]); try reflexivity.
    by apply elem_of_nil in Hf.
  - intros i Hi. simpl in Hi.
    destruct i as [|[|i]]; [left; reflexivity..|lia].
Defined.

End MoreSampleFacts.
